(** * CTFLLM: the round orchestration core, embedded and verified

    Shallow embedding of the Python sources of the CTF agent:

    - [src/ctf-agent/src/agents/task_tree.py]            (module [V1])
    - [src/ctf-agent v3/src/agents/task_manager.py]       (module [V3])
    - [src/ctf-agent v3/src/agents/flag_validator.py]     ([extract_flags])
    - [src/ctf-agent v2/src/agents/context_optimizer.py]  (module [Optimizer])
    - [src/ctf-agent v2/src/agents/ctf_agent.py]          (module [Agent])
    - [src/ctf-agent v2/main.py]                          ([is_placeholder_flag])
    - [src/ctf-agent v3/src/prompts/prompt_registry.py]   (module [Registry])

    Conventions.  A Python [str] is a list of Unicode code points
    ([list N]); [len] is [length].  Python integers are [Z].  Calls of
    the regular-expression engine ([re.findall], [re.search]) are run by a
    small backtracking matcher with the engine's priorities (greedy and
    lazy repetition, ordered alternation, leftmost match).  The patterns
    of the sources contain, besides the arrow of the task directive, only
    ASCII literals, so the case folding of the engine is given on the
    code points whose fold is ASCII; [\d] is the ASCII digit class. *)

From Stdlib Require Import ZArith NArith Lia Bool Ascii String.
From stdpp Require Import base list sets sorting.

Set Warnings "-clear-no-such-hyp,-abstract-large-number".

Local Open Scope N_scope.
Local Open Scope nat_scope.

(** ** Python strings *)

Abbreviation str := (list N).

(** String literals of this file are written as Rocq strings (UTF-8
    bytes) and decoded to code points. *)
Fixpoint utf8_decode (bs : list N) (need : nat) (acc : N) : str :=
  match bs with
  | [] => []
  | b :: bs' =>
    match need with
    | O =>
        if (b <? 128)%N then b :: utf8_decode bs' 0 0%N
        else if (b <? 224)%N then utf8_decode bs' 1 (b mod 32)%N
        else if (b <? 240)%N then utf8_decode bs' 2 (b mod 16)%N
        else utf8_decode bs' 3 (b mod 8)%N
    | S O => (acc * 64 + b mod 64)%N :: utf8_decode bs' 0 0%N
    | S n => utf8_decode bs' n (acc * 64 + b mod 64)%N
    end
  end.

Definition py (s : string) : str :=
  utf8_decode (map N_of_ascii (list_ascii_of_string s)) 0 0%N.

Definition str_eqb (a b : str) : bool := bool_decide (a = b).

(** [str.isspace] on one character: the Unicode white space. *)
Definition is_space (c : N) : bool :=
  ((9 <=? c) && (c <=? 13) || (28 <=? c) && (c <=? 32)
   || (c =? 133) || (c =? 160) || (c =? 5760)
   || (8192 <=? c) && (c <=? 8202)
   || (c =? 8232) || (c =? 8233) || (c =? 8239) || (c =? 8287)
   || (c =? 12288))%N.

Fixpoint lstrip (s : str) : str :=
  match s with
  | c :: s' => if is_space c then lstrip s' else s
  | [] => []
  end.

Definition rstrip (s : str) : str := rev (lstrip (rev s)).

(** [s.strip()] *)
Definition strip (s : str) : str := rstrip (lstrip s).

(** [s.startswith(p)] *)
Fixpoint startswith (s p : str) {struct p} : bool :=
  match p, s with
  | [], _ => true
  | a :: p', b :: s' => (a =? b)%N && startswith s' p'
  | _ :: _, [] => false
  end.

(** [s.endswith(p)] *)
Definition endswith (s p : str) : bool := startswith (rev s) (rev p).

(** [needle in hay] *)
Fixpoint contains (hay needle : str) : bool :=
  startswith hay needle ||
  match hay with
  | [] => false
  | _ :: hay' => contains hay' needle
  end.

(** [s[:n]] and [s[-n:]] for a non-negative [n] *)
Definition slice_to {A} (n : nat) (l : list A) : list A := take n l.
Definition slice_last {A} (n : nat) (l : list A) : list A :=
  drop (length l - n) l.

(** [s[-3:-1]]: of the last three elements, all but the last one. *)
Definition slice_m3_m1 {A} (l : list A) : list A :=
  take (length l - 1 - (length l - 3)) (drop (length l - 3) l).

(** [sep.join(parts)] *)
Fixpoint join (sep : str) (parts : list str) : str :=
  match parts with
  | [] => []
  | [p] => p
  | p :: rest => p ++ sep ++ join sep rest
  end.

(** [s.split(sep)] for a non-empty separator: [skip] counts the
    characters of a separator still to be passed over, [cur] holds the
    current piece in reverse. *)
Fixpoint split_go (sep : str) (s : str) (skip : nat) (cur : str) : list str :=
  match s with
  | [] => [rev cur]
  | c :: s' =>
    match skip with
    | S n => split_go sep s' n cur
    | O =>
      if startswith s sep
      then rev cur :: split_go sep s' (length sep - 1) []
      else split_go sep s' 0 (c :: cur)
    end
  end.

Definition split (s sep : str) : list str := split_go sep s 0 [].

(** [str.lower()] on the characters whose image is ASCII: the capital
    letters and the Kelvin sign; the capital I with dot lowers to two
    characters.  Every other character lowers to a non-ASCII character
    and is left as it is: only ASCII keywords are looked up in lowered
    text. *)
Definition lower_char (c : N) : str :=
  if ((65 <=? c) && (c <=? 90))%N then [(c + 32)%N]
  else if (c =? 8490)%N then [107%N]
  else if (c =? 304)%N then [105%N; 775%N]
  else [c].

Definition lower (s : str) : str := flat_map lower_char s.

(** Decimal rendering of an integer, as [str(n)] and f-strings do. *)
Fixpoint digits_of (fuel : nat) (n : N) (acc : str) : str :=
  match fuel with
  | O => acc
  | S f =>
    let acc' := (48 + n mod 10)%N :: acc in
    if (n <? 10)%N then acc' else digits_of f (n / 10)%N acc'
  end.

Definition str_of_N (n : N) : str := digits_of (S (N.to_nat (N.log2 n))) n [].

Definition str_of_Z (z : Z) : str :=
  match z with
  | Zneg p => 45%N :: str_of_N (Npos p)
  | _ => str_of_N (Z.to_N z)
  end.

Definition str_of_nat (n : nat) : str := str_of_N (N.of_nat n).

(** [int(s)] on a string: optional white space around, an optional sign,
    ASCII digits with single underscores between them.  [None] is
    [ValueError]. *)
Definition is_digit (c : N) : bool := ((48 <=? c) && (c <=? 57))%N.

Fixpoint int_digits (s : str) (acc : N) (prev_digit : bool) : option N :=
  match s with
  | [] => if prev_digit then Some acc else None
  | c :: s' =>
    if is_digit c then int_digits s' (acc * 10 + (c - 48))%N true
    else if (c =? 95)%N && prev_digit
         then match s' with
              | d :: _ => if is_digit d then int_digits s' acc false else None
              | [] => None
              end
         else None
  end.

Definition py_int (s : str) : option Z :=
  match strip s with
  | 45%N :: ds => (fun n => (- Z.of_N n)%Z) <$> int_digits ds 0%N false
  | 43%N :: ds => Z.of_N <$> int_digits ds 0%N false
  | ds => Z.of_N <$> int_digits ds 0%N false
  end.

(** ** The regular-expression engine *)

(** A pattern: one character from a class, sequence, ordered
    alternation, a repeated character class ([greedy] or lazy, at least
    [lo] and at most [hi] times), a capturing group. *)
Inductive regex :=
| Empty
| Lit (p : N → bool)
| Cat (r1 r2 : regex)
| Or (r1 r2 : regex)
| Rep (greedy : bool) (lo : nat) (hi : option nat) (p : N → bool)
| Grp (r : regex).

(** Repetition of a class: the greedy form tries one more character
    before stopping, the lazy form stops before trying one more. *)
Fixpoint rep_match {R} (greedy : bool) (lo : nat) (hi : option nat)
    (p : N → bool) (s : str) (k : str → option R) : option R :=
  let more (_ : unit) :=
    match hi with
    | Some O => None
    | _ =>
      match s with
      | c :: s' =>
        if p c then rep_match greedy (pred lo) (pred <$> hi) p s' k else None
      | [] => None
      end
    end in
  let stop (_ : unit) := match lo with O => k s | S _ => None end in
  if greedy
  then match more () with Some x => Some x | None => stop () end
  else match stop () with Some x => Some x | None => more () end.

(** The matcher, in continuation-passing style: [k] is what remains of
    the pattern; a failure of [k] makes the matcher try its next
    alternative.  Captured groups are collected in the order in which
    they close. *)
Fixpoint rmatch {R} (r : regex) (s : str) (caps : list str)
    (k : str → list str → option R) : option R :=
  match r with
  | Empty => k s caps
  | Lit p =>
    match s with
    | c :: s' => if p c then k s' caps else None
    | [] => None
    end
  | Cat r1 r2 => rmatch r1 s caps (λ s' caps', rmatch r2 s' caps' k)
  | Or r1 r2 =>
    match rmatch r1 s caps k with
    | Some x => Some x
    | None => rmatch r2 s caps k
    end
  | Rep g lo hi p => rep_match g lo hi p s (λ s', k s' caps)
  | Grp r1 =>
    rmatch r1 s caps
      (λ s' caps', k s' (caps' ++ [take (length s - length s') s]))
  end.

(** A match at the start of [s]: the matched text and the groups. *)
Definition match_here (r : regex) (s : str) : option (str * list str) :=
  rmatch r s [] (λ s' caps, Some (take (length s - length s') s, caps)).

(** [re.search]: the leftmost match. *)
Fixpoint search (r : regex) (s : str) : option (str * list str) :=
  match match_here r s with
  | Some m => Some m
  | None =>
    match s with
    | [] => None
    | _ :: s' => search r s'
    end
  end.

(** All non-overlapping matches, left to right: [skip] counts the
    characters of the previous match still to be passed over. *)
Fixpoint findall_go (r : regex) (s : str) (skip : nat) : list (str * list str) :=
  match skip with
  | S n =>
    match s with
    | [] => []
    | _ :: s' => findall_go r s' n
    end
  | O =>
    match match_here r s with
    | Some (w, caps) =>
      (w, caps) ::
      match s with
      | [] => []
      | _ :: s' => findall_go r s' (length w - 1)
      end
    | None =>
      match s with
      | [] => []
      | _ :: s' => findall_go r s' 0
      end
    end
  end.

Definition finditer (r : regex) (s : str) : list (str * list str) :=
  findall_go r s 0.

(** [re.findall] for a pattern without group: the matched texts. *)
Definition findall0 (r : regex) (s : str) : list str := fst <$> finditer r s.

(** [re.findall] for a pattern with one group: the texts of the group. *)
Definition findall1 (r : regex) (s : str) : list str :=
  (λ m, default [] (snd m !! 0)) <$> finditer r s.

(** [re.findall] for a pattern with three groups. *)
Definition findall3 (r : regex) (s : str) : list (str * str * str) :=
  (λ m, (default [] (snd m !! 0), default [] (snd m !! 1),
         default [] (snd m !! 2))) <$> finditer r s.

(** *** Character classes *)

(** The engine's lower-case map ([Py_UNICODE_TOLOWER]) on the characters
    mapped to ASCII. *)
Definition sre_lower (c : N) : N :=
  if ((65 <=? c) && (c <=? 90))%N then (c + 32)%N
  else if (c =? 8490)%N then 107%N
  else if (c =? 304)%N then 105%N
  else c.

(** The characters the engine holds equal to an ASCII lower-case letter
    besides itself: dotless i for [i], long s for [s]. *)
Definition sre_fixes (c : N) : list N :=
  if (c =? 105)%N then [305%N]
  else if (c =? 115)%N then [383%N]
  else [].

Definition N_in (c : N) (l : list N) : bool := existsb (N.eqb c) l.

(** A literal character, case-sensitive. *)
Definition ch (c : N) : N → bool := λ x, (x =? c)%N.

(** A literal character under [re.IGNORECASE]. *)
Definition chi (c : N) : N → bool :=
  λ x, let lo := sre_lower c in N_in (sre_lower x) (lo :: sre_fixes lo).

(** A character set [[...]] , case-sensitive and under [re.IGNORECASE]. *)
Definition set (l : list N) : N → bool := λ x, N_in x l.
Definition seti (l : list N) : N → bool :=
  λ x, N_in (sre_lower x)
         (flat_map (λ c, let lo := sre_lower c in lo :: sre_fixes lo) l).
Definition nset (l : list N) : N → bool := λ x, negb (set l x).
Definition nseti (l : list N) : N → bool := λ x, negb (seti l x).

(** [\s], [\d], [.] and [.] under [re.DOTALL] *)
Definition cls_space : N → bool := is_space.
Definition cls_digit : N → bool := is_digit.
Definition cls_dot : N → bool := λ x, negb (x =? 10)%N.
Definition cls_any : N → bool := λ _, true.

(** The characters of a range [a-z], as a list. *)
Definition range (a b : N) : list N :=
  (λ i, (a + N.of_nat i)%N) <$> seq 0 (S (N.to_nat (b - a))).

(** A literal text. *)
Fixpoint lits (s : str) : regex :=
  match s with
  | [] => Empty
  | c :: s' => Cat (Lit (ch c)) (lits s')
  end.

Fixpoint litsi (s : str) : regex :=
  match s with
  | [] => Empty
  | c :: s' => Cat (Lit (chi c)) (litsi s')
  end.

Definition lit (s : string) : regex := lits (py s).
Definition liti (s : string) : regex := litsi (py s).

Definition star (p : N → bool) : regex := Rep true 0 None p.
Definition plus (p : N → bool) : regex := Rep true 1 None p.
Definition lazy_star (p : N → bool) : regex := Rep false 0 None p.
Definition opt (p : N → bool) : regex := Rep true 0 (Some 1) p.
Definition at_least (n : nat) (p : N → bool) : regex := Rep true n None p.

Declare Scope regex_scope.
Delimit Scope regex_scope with re.
Bind Scope regex_scope with regex.
Infix "⋅" := Cat (at level 40, left associativity) : regex_scope.
Infix "∣" := Or (at level 50, left associativity) : regex_scope.

(** ** The goal-token pattern *)

(** [r'pico[C:]?[T:]?F\{[^}]+\}'] with [re.IGNORECASE]
    (flag_validator.py line 60, ctf_agent.py line 1290,
    context_optimizer.py line 34). *)
Definition flag_pattern : regex :=
  (liti "pico" ⋅ opt (seti (py "C:")) ⋅ opt (seti (py "T:")) ⋅ liti "F"
   ⋅ liti "{" ⋅ plus (nseti (py "}")) ⋅ liti "}")%re.

(** flag_validator.py, [_extract_flags]: the loop with the [seen] set. *)
Fixpoint unique_loop (flags : list str) (seen : list str) (unique_flags : list str)
    : list str :=
  match flags with
  | [] => unique_flags
  | flag :: rest =>
    if bool_decide (flag ∈ seen)
    then unique_loop rest seen unique_flags
    else unique_loop rest (flag :: seen) (unique_flags ++ [flag])
  end.

Definition extract_flags (text : str) : list str :=
  let flags := findall0 flag_pattern text in
  unique_loop flags [] [].


(** ** Task records shared by the task trees *)

(** The stable sort of [self.tasks.sort(key=lambda x: x.get("id", 0))]:
    an element goes before the first element whose key is not smaller. *)
Section Sort.
Context {A : Type} (key : A → Z).

Fixpoint insert_sorted (x : A) (l : list A) : list A :=
  match l with
  | [] => [x]
  | y :: l' =>
    if (key x <=? key y)%Z then x :: y :: l' else y :: insert_sorted x l'
  end.

Definition sort_by : list A → list A := foldr insert_sorted [].

(** [for i, t in enumerate(l): if p(t): index = i; break] *)
Fixpoint find_index (p : A → bool) (l : list A) : option nat :=
  match l with
  | [] => None
  | x :: l' => if p x then Some 0 else S <$> find_index p l'
  end.

(** [for t in reversed(l): if p(t): found = t; break], as an index *)
Fixpoint find_last_index (p : A → bool) (l : list A) : option nat :=
  match l with
  | [] => None
  | x :: l' =>
    match find_last_index p l' with
    | Some i => Some (S i)
    | None => if p x then Some 0 else None
    end
  end.

(** [max(l, key=...)], as an index: the first element with the largest
    key. *)
Fixpoint max_index (l : list A) : option nat :=
  match l with
  | [] => None
  | x :: l' =>
    match max_index l' with
    | Some i =>
      match l' !! i with
      | Some y => if (key x <? key y)%Z then Some (S i) else Some 0
      | None => Some 0
      end
    | None => Some 0
    end
  end.
End Sort.

(** [r'→\s*Task:\s*(\d+)\.\s*(.*?)\s+-\s+(completed|in-progress|failed|pending)']
    with [re.IGNORECASE] (task_tree.py line 27, task_manager.py line 47). *)
Definition task_pattern : regex :=
  (liti "→" ⋅ star cls_space ⋅ liti "Task:" ⋅ star cls_space
   ⋅ Grp (plus cls_digit) ⋅ liti "." ⋅ star cls_space
   ⋅ Grp (lazy_star cls_dot) ⋅ plus cls_space ⋅ liti "-" ⋅ plus cls_space
   ⋅ Grp (liti "completed" ∣ liti "in-progress" ∣ liti "failed"
          ∣ liti "pending"))%re.

(** [text[:n] + "..." if len(text) > n else text] *)
Definition truncate_dots (n : nat) (text : str) : str :=
  if bool_decide (n < length text) then slice_to n text ++ py "..." else text.

(** ** task_tree.py (first version of the agent) *)

Module V1.

Record Subtask := {
  sub_id : str;
  sub_tool : str;
  sub_input : str;
  sub_result : str;
  sub_timestamp : str
}.

Record Task := {
  id : Z;
  description : str;
  status : str;
  timestamp : str;
  subtasks : list Subtask
}.

Record TaskTree := {
  challenge_title : str;
  tasks : list Task;
  current_task_id : Z
}.

(** [TaskTree.__init__] *)
Definition init (title : str) : TaskTree :=
  {| challenge_title := title; tasks := []; current_task_id := 0 |}.

Definition set_tasks (t : TaskTree) (ts : list Task) : TaskTree :=
  {| challenge_title := challenge_title t; tasks := ts;
     current_task_id := current_task_id t |}.

(** One turn of the loop over the matches (lines 33-65): the tasks
    and the count after it. *)
Definition extract_step (now : str) (acc : list Task * nat)
    (m : str * str * str) : list Task * nat :=
  let '(ts, extracted_count) := acc in
  let '(task_id_str, descr, stat) := m in
  match py_int task_id_str with
  | None => (ts, extracted_count)
  | Some task_id =>
    let task := {| id := task_id; description := strip descr;
                   status := lower stat; timestamp := now;
                   subtasks := [] |} in
    match find_index (λ t, bool_decide (id t = task_id)) ts with
    | Some existing_index =>
      match ts !! existing_index with
      | Some existing_task =>
        if negb (str_eqb (status existing_task) (lower stat))
           || negb (str_eqb (description existing_task) (strip descr))
        then (<[existing_index :=
                 {| id := id existing_task; description := strip descr;
                    status := lower stat; timestamp := now;
                    subtasks := subtasks existing_task |}]> ts,
              S extracted_count)
        else (ts, extracted_count)
      | None => (ts, extracted_count)
      end
    | None => (ts ++ [task], S extracted_count)
    end
  end.

(** [extract_tasks_from_response] (lines 23-69): the tree after the
    call and the returned count. *)
Definition extract_tasks_from_response (self : TaskTree) (llm_response now : str)
    : TaskTree * nat :=
  let matches := findall3 task_pattern llm_response in
  let '(ts, extracted_count) := foldl (extract_step now) (tasks self, 0) matches in
  (set_tasks self (sort_by id ts), extracted_count).

Definition add_subtask (t : Task) (s : Subtask) : Task :=
  {| id := id t; description := description t; status := status t;
     timestamp := timestamp t; subtasks := subtasks t ++ [s] |}.

Definition is_in_progress (t : Task) : bool :=
  str_eqb (status t) (py "in-progress").

(** The task the tool call is attached to (lines 87-98), as an index. *)
Definition target_index (ts : list Task) : option nat :=
  match find_last_index is_in_progress ts with
  | Some i => Some i
  | None => max_index id ts
  end.

(** [add_tool_result] (lines 71-114): the tree after the call and the
    returned text. *)
Definition add_tool_result (self : TaskTree) (tool_name tool_input tool_result now : str)
    : TaskTree * str :=
  if str_eqb tool_name (py "report_task_update") then (self, py "skipped")
  else
    let ts :=
      match tasks self with
      | [] => [ {| id := 1; description := py "Solve challenge";
                   status := py "in-progress"; timestamp := now;
                   subtasks := [] |} ]
      | ts => ts
      end in
    match target_index ts with
    | Some i =>
      match ts !! i with
      | Some current_task =>
        let subtask_id_str :=
          str_of_Z (id current_task) ++ py "."
          ++ str_of_nat (length (subtasks current_task) + 1) in
        let subtask :=
          {| sub_id := subtask_id_str; sub_tool := tool_name;
             sub_input := truncate_dots 100 tool_input;
             sub_result := truncate_dots 200 tool_result;
             sub_timestamp := now |} in
        (set_tasks self (<[i := add_subtask current_task subtask]> ts),
         subtask_id_str)
      | None => (set_tasks self ts, [])
      end
    | None => (set_tasks self ts, [])
    end.

Definition status_icon (stat : str) : str :=
  if str_eqb stat (py "completed") then py "[✓]"
  else if str_eqb stat (py "in-progress") then py "[→]"
  else if str_eqb stat (py "failed") then py "[✗]"
  else if str_eqb stat (py "pending") then py "[ ]"
  else py "[?]".

(** [text[:k]] for an integer [k]: a negative [k] counts from the end. *)
Definition slice_to_Z {A} (k : Z) (l : list A) : list A :=
  if bool_decide (0 ≤ k)%Z then take (Z.to_nat k) l
  else take (length l - Z.to_nat (- k)) l.

(** [_truncate_text] (lines 248-252) *)
Definition truncate_text (text : str) (max_length : Z) : str :=
  if bool_decide (Z.of_nat (length text) ≤ max_length)%Z then text
  else slice_to_Z (max_length - 3) text ++ py "...".

Definition important_indicators : list str :=
  [py "picoctf{"; py "flag"; py "error:"; py "traceback"; py "exception";
   py "extracted characters"; py "decoded"; py "potential flag";
   py "characters from"; py "combination"].

(** [_is_important_result] (lines 232-246) *)
Definition is_important_result (result : str) : bool :=
  match result with
  | [] => false
  | _ => existsb (λ indicator, contains (lower result) indicator)
           important_indicators
  end.

(** [_clean_result_for_display] (lines 212-230); [max_length] is 80
    when the caller gives none. *)
Definition clean_result_for_display (result : str) (max_length : Z) : str :=
  match result with
  | [] => []
  | _ =>
    let stripped := strip result in
    let clean_result :=
      if startswith stripped [34%N] && endswith stripped [34%N]
      then drop 1 (take (length stripped - 1) stripped) else stripped in
    let max_length :=
      if is_important_result clean_result
      then Z.min 150 (max_length * 2) else max_length in
    if bool_decide (max_length < Z.of_nat (length clean_result))%Z
    then slice_to_Z (max_length - 3) clean_result ++ py "..."
    else clean_result
  end.

(** The lines of one subtask in the display (lines 132-141) *)
Definition subtask_lines (s : Subtask) : list str :=
  (py "   " ++ sub_id s ++ py ". Used " ++ sub_tool s)
  :: match clean_result_for_display (sub_result s) 80 with
     | [] => []
     | clean_result => [py "      -> " ++ clean_result]
     end.

Definition task_lines (t : Task) : list str :=
  (status_icon (status t) ++ py " " ++ str_of_Z (id t) ++ py ". "
   ++ description t)
  :: flat_map subtask_lines (subtasks t).

(** [get_tree_display] (lines 116-143) *)
Definition get_tree_display (self : TaskTree) : str :=
  join (py "
") ((challenge_title self ++ py " - Progress") :: flat_map task_lines (tasks self)).

(** [get_recent_progress] (lines 145-151) *)
Definition get_recent_progress (self : TaskTree) : str :=
  match tasks self with
  | [] => py "No steps recorded yet"
  | _ => get_tree_display self
  end.

End V1.


(** ** task_manager.py (third version; the second version imports its
    [TaskTree] from a module of the same name) *)

Module V3.

Record Subtask := {
  sub_id : Z;
  sub_tool : str;
  sub_input : str;
  sub_result : str;
  sub_timestamp : str
}.

Record Task := {
  id : Z;
  description : str;
  status : str;
  timestamp : str;
  subtasks : list Subtask;
  parent_id : option str;
  details : option str
}.

Record TaskTree := {
  challenge_title : str;
  tasks : list Task;
  current_task_id : Z
}.

(** [TaskTree.__init__] *)
Definition init (title : str) : TaskTree :=
  {| challenge_title := title; tasks := []; current_task_id := 0 |}.

(** The [task_id] of a structured update: JSON text or JSON number. *)
Inductive json_id := IdStr (s : str) | IdInt (z : Z).

(** One element of the ["updates"] array, after [json.loads]; a field
    is [None] when the key is absent (or [null]). *)
Record TaskUpdate := {
  u_task_id : option json_id;
  u_description : option str;
  u_status : option str;
  u_parent_id : option str;
  u_details : option str
}.

(** One turn of the loop over the arrow matches (lines 50-83): tasks,
    watermark and count after it. *)
Definition arrow_step (now : str) (acc : list Task * Z * nat)
    (m : str * str * str) : list Task * Z * nat :=
  let '(ts, cur, extracted_count) := acc in
  let '(task_id_str, descr, stat) := m in
  match py_int task_id_str with
  | None => (ts, cur, extracted_count)
  | Some task_id =>
    match find_index (λ t, bool_decide (id t = task_id)) ts with
    | Some existing_index =>
      (alter (λ t, {| id := id t; description := strip descr;
                      status := lower stat; timestamp := now;
                      subtasks := subtasks t; parent_id := parent_id t;
                      details := details t |}) existing_index ts,
       cur, S extracted_count)
    | None =>
      (ts ++ [ {| id := task_id; description := strip descr;
                  status := lower stat; timestamp := now; subtasks := [];
                  parent_id := None; details := None |} ],
       Z.max cur task_id, S extracted_count)
    end
  end.

(** The identifier of a structured update (lines 107-117): the new
    watermark and the identifier. *)
Definition resolve_id (cur : Z) (tid : option json_id) : Z * Z :=
  match tid with
  | None | Some (IdStr []) | Some (IdInt 0%Z) => ((cur + 1)%Z, (cur + 1)%Z)
  | Some (IdInt z) => (Z.max cur z, z)
  | Some (IdStr s) =>
    match py_int s with
    | Some z => (Z.max cur z, z)
    | None => ((cur + 1)%Z, (cur + 1)%Z)
    end
  end.

(** One turn of the loop over the updates (lines 106-148). *)
Definition update_step (now : str) (acc : list Task * Z * nat)
    (update : TaskUpdate) : list Task * Z * nat :=
  let '(ts, cur, extracted_count) := acc in
  let '(cur', task_id) := resolve_id cur (u_task_id update) in
  let descr := default (py "Unknown task") (u_description update) in
  let stat := default (py "pending") (u_status update) in
  match find_index (λ t, bool_decide (id t = task_id)) ts with
  | Some existing_index =>
    (alter (λ t, {| id := id t; description := descr; status := stat;
                    timestamp := now; subtasks := subtasks t;
                    parent_id := parent_id t;
                    details := u_details update |}) existing_index ts,
     cur', S extracted_count)
  | None =>
    (ts ++ [ {| id := task_id; description := descr; status := stat;
                timestamp := now; subtasks := [];
                parent_id := u_parent_id update;
                details := u_details update |} ],
     cur', S extracted_count)
  end.

(** [r'<tool>task_manager</tool>\s*<input>(.*?)</input>'] with
    [re.DOTALL] (line 90). *)
Definition json_pattern : regex :=
  (lit "<tool>task_manager</tool>" ⋅ star cls_space ⋅ lit "<input>"
   ⋅ Grp (lazy_star cls_any) ⋅ lit "</input>")%re.

(** Lines 96-101: the code fence around the JSON text is removed. *)
Definition clean_json_input (json_input : str) : str :=
  let a := strip json_input in
  let b := if startswith a (py "```json") then drop 7 a else a in
  let c := if endswith b (py "```") then take (length b - 3) b else b in
  strip c.

Section Extract.
(** [json.loads] followed by [data.get("updates", [])]: [None] is
    [json.JSONDecodeError].  The decoder is Python's, not the
    repository's. *)
Variable json_loads : str → option (list TaskUpdate).

(** One turn of the loop over the JSON inputs (lines 93-152). *)
Definition json_step (now : str) (acc : list Task * Z * nat)
    (json_input : str) : list Task * Z * nat :=
  match json_loads (clean_json_input json_input) with
  | None => acc
  | Some updates => foldl (update_step now) acc updates
  end.

(** [extract_tasks_from_response] (lines 42-159): the tree after the
    call and the returned count. *)
Definition extract_tasks_from_response (self : TaskTree)
    (llm_response now : str) : TaskTree * nat :=
  let matches := findall3 task_pattern llm_response in
  let acc1 := foldl (arrow_step now)
                (tasks self, current_task_id self, 0) matches in
  let '(ts, cur, extracted_count) :=
    if bool_decide (acc1.2 = 0)
    then foldl (json_step now) acc1 (findall1 json_pattern llm_response)
    else acc1 in
  ({| challenge_title := challenge_title self;
      tasks := sort_by id ts; current_task_id := cur |},
   extracted_count).
End Extract.

Definition add_subtask (t : Task) (s : Subtask) : Task :=
  {| id := id t; description := description t; status := status t;
     timestamp := timestamp t; subtasks := subtasks t ++ [s];
     parent_id := parent_id t; details := details t |}.

Definition is_in_progress (t : Task) : bool :=
  str_eqb (status t) (py "in-progress").

(** The task the tool call is attached to (lines 178-187), as an
    index: the last task in progress, else the last task. *)
Definition target_index (ts : list Task) : option nat :=
  match find_last_index is_in_progress ts with
  | Some i => Some i
  | None => match ts with [] => None | _ => Some (length ts - 1) end
  end.

(** [add_tool_result] (lines 161-206): the tree after the call and the
    returned text. *)
Definition add_tool_result (self : TaskTree)
    (tool_name tool_input tool_result now : str) : TaskTree * str :=
  if str_eqb tool_name (py "task_manager") then (self, py "skipped")
  else
    let '(ts, cur) :=
      match tasks self with
      | [] => ([ {| id := 1;
                    description := py "Challenge analysis and solving";
                    status := py "in-progress"; timestamp := now;
                    subtasks := []; parent_id := None; details := None |} ],
               1%Z)
      | ts => (ts, current_task_id self)
      end in
    match target_index ts with
    | Some i =>
      match ts !! i with
      | Some target_task =>
        let subtask :=
          {| sub_id := Z.of_nat (length (subtasks target_task) + 1);
             sub_tool := tool_name;
             sub_input := truncate_dots 200 tool_input;
             sub_result := truncate_dots 500 tool_result;
             sub_timestamp := now |} in
        ({| challenge_title := challenge_title self;
            tasks := <[i := add_subtask target_task subtask]> ts;
            current_task_id := cur |},
         py "Added to task " ++ str_of_Z (id target_task))
      | None =>
        ({| challenge_title := challenge_title self; tasks := ts;
            current_task_id := cur |}, py "No target task found")
      end
    | None =>
      ({| challenge_title := challenge_title self; tasks := ts;
          current_task_id := cur |}, py "No target task found")
    end.

Definition status_icon (stat : str) : str :=
  if str_eqb stat (py "completed") then py "[✓]"
  else if str_eqb stat (py "in-progress") then py "[→]"
  else if str_eqb stat (py "failed") then py "[✗]"
  else if str_eqb stat (py "pending") then py "[~]"
  else py "[?]".

(** The line of one subtask (lines 232-253); [None] for a subtask of
    the task manager itself. *)
Definition subtask_line (s : Subtask) : option str :=
  if str_eqb (sub_tool s) (py "task_manager") then None
  else
    let result := sub_result s in
    let subtask_status :=
      if contains (lower result) (py "success") || contains result (py "✓")
      then py "✓"
      else if contains (lower result) (py "error") || contains result (py "✗")
              || contains (lower result) (py "failed")
      then py "✗"
      else py "?" in
    let result := truncate_dots 80 result in
    Some (py "    " ++ str_of_Z (sub_id s) ++ py ". Used " ++ sub_tool s
          ++ py " " ++ subtask_status ++ py " - " ++ result).

Definition task_lines (t : Task) : list str :=
  (status_icon (status t) ++ py " " ++ str_of_Z (id t) ++ py ". "
   ++ description t)
  :: omap subtask_line (subtasks t).

(** [get_display_tree] (lines 208-255), and [get_tree_display], its
    alias (lines 308-310). *)
Definition get_display_tree (self : TaskTree) : str :=
  match tasks self with
  | [] => py "📋 No tasks yet"
  | ts =>
    join (py "
")
      ((py "📋 " ++ challenge_title self ++ py " - Task Progress")
       :: replicate 50 61%N
       :: flat_map task_lines ts)
  end.

Definition get_tree_display : TaskTree → str := get_display_tree.

Definition valid_statuses : list str :=
  [py "pending"; py "in-progress"; py "completed"; py "failed"].

(** [status.lower().replace("_", "-")], and the fall-back to [pending]
    (lines 316-322) *)
Definition normalize_status (stat : str) : str :=
  let s := (λ c, if (c =? 95)%N then 45%N else c) <$> lower stat in
  if bool_decide (s ∈ valid_statuses) then s else py "pending".

(** [update_task_status] (lines 312-353): the tree after the call; the
    call returns [True].  A description that is [None] or empty leaves
    the description of an existing task as it is. *)
Definition update_task_status (self : TaskTree) (task_id : Z) (stat : str)
    (descr : option str) (now : str) : TaskTree :=
  let stat := normalize_status stat in
  let given := match descr with Some (c :: d) => Some (c :: d) | _ => None end in
  match find_index (λ t, bool_decide (id t = task_id)) (tasks self) with
  | Some existing_index =>
    {| challenge_title := challenge_title self;
       tasks := alter (λ t, {| id := id t;
                               description := default (description t) given;
                               status := stat; timestamp := now;
                               subtasks := subtasks t;
                               parent_id := parent_id t;
                               details := details t |})
                  existing_index (tasks self);
       current_task_id := current_task_id self |}
  | None =>
    {| challenge_title := challenge_title self;
       tasks := tasks self
                ++ [ {| id := task_id;
                        description :=
                          default (py "Task " ++ str_of_Z task_id) given;
                        status := stat; timestamp := now; subtasks := [];
                        parent_id := None; details := None |} ];
       current_task_id := Z.max (current_task_id self) task_id |}
  end.

End V3.


(** ** context_optimizer.py *)

Module Optimizer.

Record ContextOptimizer := {
  full_context_interval : Z;
  max_recent_tasks : nat;
  token_budget : Z
}.

(** [ContextOptimizer.__init__] *)
Definition init : ContextOptimizer :=
  {| full_context_interval := 5; max_recent_tasks := 3;
     token_budget := 1000 |}.

Definition error_words : list str :=
  [py "error"; py "failed"; py "exception"; py "traceback"].

(** A recent result is a notable one (lines 31-38): it holds a goal
    token or one of the error words. *)
Definition notable (result : str) : bool :=
  match result with
  | [] => false
  | _ =>
    bool_decide (is_Some (search flag_pattern result))
    || existsb (λ error_word, contains (lower result) error_word) error_words
  end.

(** [should_send_full_context] (lines 19-40).  A missing
    [recent_results] ([None]) and the empty list are treated alike by
    every function of the class, and are both the empty list here. *)
Definition should_send_full_context (self : ContextOptimizer)
    (current_round : Z) (task_count : nat) (recent_results : list str) : bool :=
  if bool_decide (current_round `mod` full_context_interval self = 0)%Z
  then true
  else if bool_decide (task_count ≤ 3) then true
  else existsb notable recent_results.

(** [_get_status_icon] (lines 104-112) *)
Definition status_icon (stat : str) : str :=
  if str_eqb stat (py "completed") then py "[✓]"
  else if str_eqb stat (py "in-progress") then py "[→]"
  else if str_eqb stat (py "failed") then py "[✗]"
  else if str_eqb stat (py "pending") then py "[ ]"
  else py "[?]".

(** [l[-n:]], which is the whole list for [n = 0] *)
Definition slice_neg {A} (n : nat) (l : list A) : list A :=
  match n with O => l | _ => drop (length l - n) l end.

Definition summary_lines (task : V3.Task) : list str :=
  (status_icon (V3.status task) ++ py " " ++ str_of_Z (V3.id task)
   ++ py ". " ++ V3.description task)
  :: match last (V3.subtasks task) with
     | Some last_subtask =>
       let result := V3.sub_result last_subtask in
       if bool_decide (0 < length (strip result))
       then [py "   -> " ++ truncate_dots 80 result]
       else []
     | None => []
     end.

(** [_get_recent_summary] (lines 78-102) *)
Definition get_recent_summary (self : ContextOptimizer) (task_tree : V3.TaskTree)
    : str :=
  match V3.tasks task_tree with
  | [] => py "No tasks completed yet"
  | ts =>
    join (py "
") (flat_map summary_lines (slice_neg (max_recent_tasks self) ts))
  end.

(** The patterns of [_is_important_result] (lines 153-175), searched
    in the lowered result without flag. *)
Definition sp : regex := star cls_space.
Definition sp1 : regex := plus cls_space.
Definition one_of (s : string) : regex := Lit (set (py s)).

Definition important_patterns : list regex :=
  [ (lit "pico" ⋅ opt (set (py "c:")) ⋅ opt (set (py "t:")) ⋅ lit "f"
     ⋅ lit "{" ⋅ plus (nset (py "}")) ⋅ lit "}")%re;
    (lit "flag" ⋅ sp ⋅ one_of "=:")%re;
    lit "ctf{";
    (lit "error" ⋅ sp ⋅ lit ":")%re;
    lit "traceback";
    lit "exception";
    lit "failed";
    (lit "extracted" ⋅ sp1 ⋅ lit "character" ⋅ opt (ch 115) ⋅ sp
     ⋅ one_of ":=")%re;
    (lit "decoded" ⋅ sp ⋅ one_of ":=")%re;
    (lit "output" ⋅ sp ⋅ one_of ":=")%re;
    (lit "result" ⋅ sp ⋅ one_of ":=")%re;
    (lit "character" ⋅ opt (ch 115) ⋅ sp1 ⋅ lit "from")%re;
    lit "combination";
    (lit "potential" ⋅ sp1 ⋅ lit "flag")%re ].

(** [_is_important_result] (lines 145-182) *)
Definition is_important_result (result : str) : bool :=
  match result with
  | [] => false
  | _ =>
    existsb (λ pattern, bool_decide (is_Some (search pattern (lower result))))
      important_patterns
    || bool_decide (200 < length result)
  end.

(** [_is_truncated_in_tree] (lines 184-195) *)
Definition is_truncated_in_tree (result : str) (recent_tasks : list V3.Task)
    : bool :=
  let result_prefix := strip (slice_to 80 result) in
  existsb (λ task,
    existsb (λ subtask,
      let tree_result := V3.sub_result subtask in
      bool_decide (tree_result ≠ [])
      && contains tree_result result_prefix
      && bool_decide (length tree_result < length result))
      (V3.subtasks task)) recent_tasks.

(** [_get_truncated_important_results] (lines 114-143) *)
Definition get_truncated_important_results (task_tree : V3.TaskTree)
    (recent_results : list str) : list str :=
  match recent_results with
  | [] => []
  | _ =>
    let recent_tasks := slice_last 2 (V3.tasks task_tree) in
    let first :=
      match last recent_results with
      | Some latest_result =>
        if bool_decide (80 < length (strip latest_result))
           && is_truncated_in_tree latest_result recent_tasks
        then [latest_result] else []
      | None => []
      end in
    first ++
    filter (λ result,
              80 < length (strip result)
              ∧ is_important_result result = true
              ∧ is_truncated_in_tree result recent_tasks = true)
      (slice_m3_m1 recent_results)
  end.

Inductive context_type := empty | recent | full.

Record ContextData := {
  kind : context_type;
  content : str;
  token_estimate : nat;
  tasks_included : option nat;
  truncated_results : list str
}.

(** [get_optimized_task_context] (lines 42-76).  The tree is [None]
    when the agent has none; an object of class [TaskTree] is never
    false and always has the attribute [tasks]. *)
Definition get_optimized_task_context (self : ContextOptimizer)
    (task_tree : option V3.TaskTree) (current_round : Z)
    (recent_results : list str) : ContextData :=
  match task_tree with
  | None =>
    {| kind := empty; content := py "No tasks recorded yet";
       token_estimate := 20; tasks_included := None;
       truncated_results := [] |}
  | Some tree =>
    let task_count := length (V3.tasks tree) in
    let send_full :=
      should_send_full_context self current_round task_count recent_results in
    if send_full then
      let full_content := V3.get_tree_display tree in
      let truncated := get_truncated_important_results tree recent_results in
      {| kind := full; content := full_content;
         token_estimate := length full_content / 4;
         tasks_included := Some task_count;
         truncated_results := truncated |}
    else
      let recent_content := get_recent_summary self tree in
      {| kind := recent; content := recent_content;
         token_estimate := length recent_content / 4;
         tasks_included := Some (min (max_recent_tasks self) task_count);
         truncated_results := [] |}
  end.

End Optimizer.

(** ** main.py: the placeholder filter *)

Definition body_of (s : string) : regex :=
  (liti "picoCTF{" ⋅ liti s ⋅ liti "}")%re.

Definition alnum_ : list N :=
  range 97 122 ++ range 65 90 ++ range 48 57 ++ [95%N].

(** The patterns of [is_placeholder_flag] (lines 682-694), searched
    with [re.IGNORECASE]. *)
Definition invalid_patterns : list regex :=
  [ body_of "...";
    body_of "content";
    body_of "{...}";
    (liti "picoCTF{" ⋅ at_least 4 (seti (py "Xx")) ⋅ liti "}")%re;
    body_of "flag";
    body_of "FLAG";
    body_of "your_flag";
    (liti "picoCTF{" ⋅ at_least 3 (nseti alnum_) ⋅ liti "}")%re;
    (liti "picoCTF{" ⋅ star (nseti (py "}")) ⋅ liti "placeholder"
     ⋅ star (nseti (py "}")) ⋅ liti "}")%re;
    (liti "picoCTF{" ⋅ star (nseti (py "}")) ⋅ liti "example"
     ⋅ star (nseti (py "}")) ⋅ liti "}")%re;
    (liti "picoCTF{" ⋅ star (nseti (py "}")) ⋅ liti "template"
     ⋅ star (nseti (py "}")) ⋅ liti "}")%re ].

(** [r'picoCTF\{([^}]+)\}'], searched without flag (line 701). *)
Definition content_pattern : regex :=
  (lit "picoCTF{" ⋅ Grp (plus (nset (py "}"))) ⋅ lit "}")%re.

(** [is_placeholder_flag] (lines 677-707) *)
Definition is_placeholder_flag (flag : str) : bool :=
  if existsb (λ pattern, bool_decide (is_Some (search pattern flag)))
       invalid_patterns
  then true
  else
    match search content_pattern flag with
    | Some (_, caps) =>
      let content_text := default [] (caps !! 0) in
      if bool_decide (length content_text < 3)
         || bool_decide (100 < length content_text)
      then true else false
    | None => false
    end.

(** The pattern of the caller of the filter (main.py lines 623, 629):
    [r"picoCTF\{[^}]+\}"], searched without flag. *)
Definition strict_flag_pattern : regex :=
  (lit "picoCTF{" ⋅ plus (nset (py "}")) ⋅ lit "}")%re.


(** ** ctf_agent.py (second version) *)

Module Agent.

(** [ConversationRound] (lines 25-35); the token counts are those of
    the tokenizer. *)
Record ConversationRound := {
  round_number : Z;
  human_input : str;
  ai_response : str;
  input_tokens : nat;
  output_tokens : nat;
  tools_used : list str;
  timestamp : str;
  input_source : str
}.

(** The state of a [CTFAgent] that the round uses: the round counter,
    the contents of the messages of the chat memory, the ledger, the
    task tree, the results of the last round, the last goal-token
    candidate, and title and category of the challenge. *)
Record CTFAgent := {
  current_round : Z;
  messages : list str;
  conversation_history : list ConversationRound;
  task_tree : option V3.TaskTree;
  last_tool_results : list str;
  last_flag_candidate : option str;
  challenge_info : option (str * str);
  context_optimizer : Optimizer.ContextOptimizer
}.

(** [CTFAgent.__init__] (lines 402-413), the fields above. *)
Definition init : CTFAgent :=
  {| current_round := 0; messages := []; conversation_history := [];
     task_tree := None; last_tool_results := []; last_flag_candidate := None;
     challenge_info := None; context_optimizer := Optimizer.init |}.

(** What [self.agent.invoke] gives: an exception with its text, or a
    response with its output and, when the key is present, the
    intermediate steps (tool, input, observation). *)
Inductive reply :=
| Raised (e : str)
| Replied (output : str) (intermediate_steps : option (list (str * str * str))).

(** The collaborators of a round, which are not code of the agent: the
    model, the tokenizer, the tools by name (a tool returns its raw
    text or raises), the JSON decoder on a tool envelope (success,
    output, error) and on the task updates, and the clock. *)
Record World := {
  invoke : str → list str → reply;
  count_tokens : str → nat;
  tools : str → option (str → str + str);
  json_envelope : str → option (bool * str * str);
  json_updates : str → option (list V3.TaskUpdate);
  now : str
}.

(** [dict.fromkeys(candidates)], as the list of its keys: a key stays
    where it was first inserted. *)
Definition dict_fromkeys (l : list str) : list str :=
  foldl (λ keys x, if bool_decide (x ∈ keys) then keys else keys ++ [x]) [] l.

(** [_detect_flags] (lines 1280-1307): the candidates shown, and the
    candidate kept. *)
Definition detect_candidates (ai_response : str) (tool_results : list str)
    : list str :=
  let all_text := ai_response ++ py " " ++ join (py " ") tool_results in
  dict_fromkeys (findall0 flag_pattern all_text).

Definition detect_flags (previous : option str) (ai_response : str)
    (tool_results : list str) : option str :=
  match last (detect_candidates ai_response tool_results) with
  | Some candidate => Some candidate
  | None => previous
  end.

(** [_parse_tool_calls] (lines 1232-1248) *)
Definition parse_tool_calls (ai_response : str) : list (str * str) :=
  omap (λ seg,
    if negb (contains seg (py "</tool>")) then None
    else
      let tool_name := strip (default [] (head (split seg (py "</tool>")))) in
      if negb (contains seg (py "<input>")) || negb (contains seg (py "</input>"))
      then None
      else
        let after := default [] (split seg (py "<input>") !! 1) in
        Some (tool_name, strip (default [] (head (split after (py "</input>"))))))
    (drop 1 (split ai_response (py "<tool>"))).

(** The content guard of [interact] (lines 1056-1084): the input and
    the chat memory after it. *)
Definition truncation_marker : str :=
  py "

... (content truncated due to size - focus on key information above)".

Definition estimated_tokens (user_input : str) (history : list str) : Z :=
  (Z.of_nat (length (user_input ++ concat history)) / 4)%Z.

Definition guard_content (user_input : str) (history : list str)
    : str * list str :=
  if bool_decide (120000 < estimated_tokens user_input history)%Z
  then
    (if bool_decide (100000 < Z.of_nat (length user_input))%Z
     then slice_to (Z.to_nat 100000) user_input ++ truncation_marker
     else user_input,
     if bool_decide (10 < length history)
     then slice_last 10 history
     else history)
  else (user_input, history).

Section Round.
Variable w : World.

(** [_parse_tool_result] (lines 1207-1230) *)
Definition parse_tool_result (observation : str) : str :=
  match json_envelope w observation with
  | Some (true, output, _) => strip output
  | Some (false, _, error) => py "ERROR: " ++ error
  | None =>
    let r0 := strip observation in
    let r1 := if startswith r0 (py "'") && endswith r0 (py "'")
              then drop 1 (take (length r0 - 1) r0) else r0 in
    let r2 := if startswith r1 [98%N; 34%N] || startswith r1 (py "b'")
              then drop 2 (take (length r1 - 1) r1) else r1 in
    match r2 with
    | [] => py "No output generated"
    | _ => r2
    end
  end.

(** [_execute_tool] (lines 1250-1266) *)
Definition execute_tool (tool_name tool_input : str) : str :=
  match tools w tool_name with
  | None => py "ERROR: Tool '" ++ tool_name ++ py "' not found"
  | Some run =>
    match run tool_input with
    | inl raw_result => parse_tool_result raw_result
    | inr e => py "ERROR: Tool execution failed: " ++ e
    end
  end.

Definition tree_add (tree : option V3.TaskTree) (name input result : str)
    : option V3.TaskTree :=
  (λ t, (V3.add_tool_result t name input result (now w)).1) <$> tree.

(** The loop over the intermediate steps (lines 1115-1134): the
    tools used, the results and the tree. *)
Definition step_loop (acc : list str * list str * option V3.TaskTree)
    (step : str * str * str) : list str * list str * option V3.TaskTree :=
  let '(used, results, tree) := acc in
  let '(tool_name, tool_input, observation) := step in
  let display_result := parse_tool_result observation in
  (used ++ [tool_name], results ++ [display_result],
   tree_add tree tool_name tool_input display_result).

(** The loop over the calls written as tags (lines 1141-1154) *)
Definition call_loop (acc : list str * list str * option V3.TaskTree)
    (call : str * str) : list str * list str * option V3.TaskTree :=
  let '(used, results, tree) := acc in
  let '(tool_name, tool_input) := call in
  let display_result := execute_tool tool_name tool_input in
  (used ++ [tool_name], results ++ [display_result],
   tree_add tree tool_name tool_input display_result).

(** [interact] (lines 1035-1205): the agent after the round and the
    returned text.  The [try] block is left by an exception of the model
    call; the steps after it report their own errors as values (the
    tools, the decoders and the task tree catch theirs), and are total
    here. *)
Definition interact (self : CTFAgent) (user_input input_source : str)
    : CTFAgent * str :=
  let round := (current_round self + 1)%Z in
  let '(user_input, history) := guard_content user_input (messages self) in
  match invoke w user_input history with
  | Raised e =>
    ({| current_round := round; messages := history;
        conversation_history := conversation_history self;
        task_tree := task_tree self;
        last_tool_results := last_tool_results self;
        last_flag_candidate := last_flag_candidate self;
        challenge_info := challenge_info self;
        context_optimizer := context_optimizer self |},
     py "Round " ++ str_of_Z round ++ py " failed: " ++ e)
  | Replied ai_response steps =>
    let tree1 :=
      (λ t, (V3.extract_tasks_from_response (json_updates w) t
               ai_response (now w)).1) <$> task_tree self in
    let acc1 := foldl step_loop ([], [], tree1) (default [] steps) in
    let '(tools_used, tool_results, tree2) :=
      match acc1.1.1 with
      | [] =>
        if contains ai_response (py "<tool>")
           && contains ai_response (py "</tool>")
        then foldl call_loop acc1 (parse_tool_calls ai_response)
        else acc1
      | _ => acc1
      end in
    let round_record :=
      {| round_number := round; human_input := user_input;
         ai_response := ai_response;
         input_tokens := count_tokens w user_input;
         output_tokens := count_tokens w ai_response;
         tools_used := tools_used; timestamp := now w;
         input_source := input_source |} in
    ({| current_round := round;
        messages := history ++ [user_input; ai_response];
        conversation_history := conversation_history self ++ [round_record];
        task_tree := tree2;
        last_tool_results := tool_results;
        last_flag_candidate :=
          detect_flags (last_flag_candidate self) ai_response tool_results;
        challenge_info := challenge_info self;
        context_optimizer := context_optimizer self |},
     ai_response)
  end.

(** A session: the rounds played one after the other. *)
Definition run (self : CTFAgent) (inputs : list (str * str)) : CTFAgent :=
  foldl (λ a i, (interact a i.1 i.2).1) self inputs.
End Round.

(** A result that is sent on (lines 1507, 1514): not blank and not a
    raw tool envelope. *)
Definition envelope_prefix : str :=
  [123%N; 34%N] ++ py "success" ++ [34%N].

Definition sendable (result : str) : bool :=
  bool_decide (result ≠ []) && bool_decide (strip result ≠ [])
  && negb (startswith result envelope_prefix).

(** The results that [get_continue_prompt] (lines 1488-1545) hands to
    the prompt registry, given the context of the optimizer. *)
Definition filtered_results (context_data : Optimizer.ContextData)
    (tool_results : list str) : list str :=
  match last tool_results with
  | None => []
  | Some latest_result =>
    (if sendable latest_result then [latest_result] else [])
    ++ match Optimizer.kind context_data with
       | Optimizer.recent =>
         filter (λ result, sendable result = true)
           (take (length tool_results - 1) tool_results)
       | Optimizer.full =>
         filter (λ result, result ≠ latest_result)
           (Optimizer.truncated_results context_data)
       | Optimizer.empty => []
       end
  end.

(** [get_continue_prompt]: the arguments of
    [registry.get_continue_prompt], that is the context (title,
    category, task summary; empty without challenge information) and
    the filtered results.  The template they are filled in is a file. *)
Definition get_continue_prompt (self : CTFAgent) (tool_results : list str)
    : option (str * str * str) * list str :=
  let context_data :=
    Optimizer.get_optimized_task_context (context_optimizer self)
      (task_tree self) (current_round self) tool_results in
  ((λ ci, (ci.1, ci.2, Optimizer.content context_data)) <$> challenge_info self,
   filtered_results context_data tool_results).

(** The totals of [get_conversation_summary] (lines 1309-1345): rounds,
    input tokens, output tokens, all tokens, and the entry of each round
    (number, input tokens, output tokens, tools). *)
Record Summary := {
  total_rounds : nat;
  total_input_tokens : nat;
  total_output_tokens : nat;
  total_tokens : nat;
  rounds : list (Z * nat * nat * list str)
}.

Definition get_conversation_summary (self : CTFAgent) : Summary :=
  let h := conversation_history self in
  {| total_rounds := length h;
     total_input_tokens := sum_list (input_tokens <$> h);
     total_output_tokens := sum_list (output_tokens <$> h);
     total_tokens := sum_list ((λ r, input_tokens r + output_tokens r) <$> h);
     rounds := (λ r, (round_number r, input_tokens r, output_tokens r,
                      tools_used r)) <$> h |}.

(** [r'picoCTF\{[^}]+\}'] with [re.IGNORECASE] (line 1361) *)
Definition picoctf_pattern : regex :=
  (liti "picoCTF{" ⋅ plus (nseti (py "}")) ⋅ liti "}")%re.

(** [extract_flag_from_conversation] (lines 1356-1374): the rounds from
    the latest on, the response before the input. *)
Fixpoint first_flag (texts : list str) : option str :=
  match texts with
  | [] => None
  | text :: rest =>
    match search picoctf_pattern text with
    | Some (w, _) => Some w
    | None => first_flag rest
    end
  end.

Definition extract_flag_from_conversation (self : CTFAgent) : option str :=
  first_flag
    (flat_map (λ r, [ai_response r; human_input r])
       (rev (conversation_history self))).

End Agent.

(** ** prompt_registry.py *)

Module Registry.

(** [_format_files_list] (lines 191-201) *)
Definition file_name (file_path : str) : str :=
  if contains file_path (py "/")
  then default [] (last (split file_path (py "/")))
  else file_path.

Definition format_files_list (files : list str) : str :=
  match files with
  | [] => py "No files provided"
  | _ =>
    join (py "
") (imap (λ i file_path,
              py "[File " ++ str_of_nat (S i) ++ py "]: " ++ file_name file_path)
         files)
  end.

End Registry.

(** * Notions used in the statements, and sample inputs *)

(** The texts a pattern stands for. *)
Inductive matches : regex → str → Prop :=
| m_empty : matches Empty []
| m_lit p c : p c = true → matches (Lit p) [c]
| m_cat r1 r2 w1 w2 :
    matches r1 w1 → matches r2 w2 → matches (Cat r1 r2) (w1 ++ w2)
| m_or_l r1 r2 w : matches r1 w → matches (Or r1 r2) w
| m_or_r r1 r2 w : matches r2 w → matches (Or r1 r2) w
| m_rep g lo hi p w :
    Forall (λ c, p c = true) w → lo ≤ length w →
    (∀ h, hi = Some h → length w ≤ h) →
    matches (Rep g lo hi p) w
| m_grp r w : matches r w → matches (Grp r) w.

(** [w] occurs in [s]. *)
Definition occurs_in (w s : str) : Prop := ∃ pre post, s = pre ++ w ++ post.

(** The elements of a list in the order of their first occurrence. *)
Fixpoint first_occurrences (l : list str) : list str :=
  match l with
  | [] => []
  | x :: l' => x :: filter (λ y, y ≠ x) (first_occurrences l')
  end.

(** A result holds a goal token; a result holds an error word. *)
Definition holds_goal_token (result : str) : Prop :=
  ∃ w, matches flag_pattern w ∧ occurs_in w result.

Definition holds_error_word (result : str) : Prop :=
  ∃ error_word, error_word ∈ Optimizer.error_words
                ∧ occurs_in error_word (lower result).

Definition two_tasks : V3.TaskTree :=
  (V3.extract_tasks_from_response (λ _, None) (V3.init (py "demo"))
     (py "→ Task: 1. Read the file - completed
→ Task: 2. Decode the text - in-progress") (py "t0")).1.

(** A result of 610 characters that begins with the envelope prefix. *)
Definition raw_envelope_result : str :=
  Agent.envelope_prefix ++ replicate 600 65%N.


Definition four_task_tree : V3.TaskTree :=
  let t := (V3.extract_tasks_from_response (λ _, None) (V3.init (py "demo"))
              (py "→ Task: 1. Read the file - completed
→ Task: 2. List the archive - completed
→ Task: 3. Unpack the archive - completed
→ Task: 4. Decode the text - in-progress") (py "t0")).1 in
  (V3.add_tool_result t (py "bash") (py "cat out.json") raw_envelope_result
     (py "t1")).1.


(** A world for the examples: the model raises a time-out on the input
    [boom] and answers [ok] otherwise; there is no tool. *)
Definition sample_world : Agent.World :=
  {| Agent.invoke := λ user_input _,
       if str_eqb user_input (py "boom") then Agent.Raised (py "timeout")
       else Agent.Replied (py "ok") None;
     Agent.count_tokens := λ text, length text;
     Agent.tools := λ _, None;
     Agent.json_envelope := λ _, None;
     Agent.json_updates := λ _, None;
     Agent.now := py "2025-01-01T00:00:00" |}.

(** A world whose model always answers. *)
Definition steady_world : Agent.World :=
  {| Agent.invoke := λ _ _, Agent.Replied (py "ok") None;
     Agent.count_tokens := λ text, length text;
     Agent.tools := λ _, None;
     Agent.json_envelope := λ _, None;
     Agent.json_updates := λ _, None;
     Agent.now := py "2025-01-01T00:00:00" |}.

(** An agent with twelve messages of 40000 characters in its chat
    memory, and an input of 100001 characters: 580001 characters,
    145000 estimated tokens. *)
Definition loaded_agent : Agent.CTFAgent :=
  {| Agent.current_round := 3;
     Agent.messages := replicate 12 (replicate (Z.to_nat 40000) 66%N);
     Agent.conversation_history := []; Agent.task_tree := None;
     Agent.last_tool_results := []; Agent.last_flag_candidate := None;
     Agent.challenge_info := None;
     Agent.context_optimizer := Optimizer.init |}.

Definition long_input : str := replicate (Z.to_nat 100001) 65%N.

(** The ledger of an agent is in order when its round numbers increase
    strictly and lie between 1 and the round counter. *)
Definition ledger_in_order (a : Agent.CTFAgent) : Prop :=
  (0 ≤ Agent.current_round a)%Z
  ∧ StronglySorted Z.lt (Agent.round_number <$> Agent.conversation_history a)
  ∧ Forall (λ n, 1 ≤ n ≤ Agent.current_round a)%Z
      (Agent.round_number <$> Agent.conversation_history a).

















(** A first task tree with two tasks. *)
Definition two_tasks_v1 : V1.TaskTree :=
  (V1.extract_tasks_from_response (V1.init (py "demo"))
     (py "→ Task: 1. Read the file - in-progress
→ Task: 2. Decode the text - pending") (py "t0")).1.

(** The task list that [add_tool_result] works on: the tasks of the
    tree, or the default task when there is none. *)
Definition V1_seeded (self : V1.TaskTree) (now : str) : list V1.Task :=
  match V1.tasks self with
  | [] => [ {| V1.id := 1; V1.description := py "Solve challenge";
               V1.status := py "in-progress"; V1.timestamp := now;
               V1.subtasks := [] |} ]
  | ts => ts
  end.

Definition V3_seeded (self : V3.TaskTree) (now : str) : list V3.Task :=
  match V3.tasks self with
  | [] => [ {| V3.id := 1;
               V3.description := py "Challenge analysis and solving";
               V3.status := py "in-progress"; V3.timestamp := now;
               V3.subtasks := []; V3.parent_id := None; V3.details := None |} ]
  | ts => ts
  end.

(** The number of subtasks of a list of tasks. *)
Definition V1_subtask_total (ts : list V1.Task) : nat :=
  sum_list ((λ t, length (V1.subtasks t)) <$> ts).

Definition V3_subtask_total (ts : list V3.Task) : nat :=
  sum_list ((λ t, length (V3.subtasks t)) <$> ts).







(** The subtasks of the tree of an agent, and the tools of a round whose
    results the tree records. *)
Definition tree_subtask_total (tree : option V3.TaskTree) : nat :=
  from_option (λ t, V3_subtask_total (V3.tasks t)) 0 tree.







(** A tool call written as tags: the name, the text between the closing
    tool tag and the opening input tag, the input, and the text after
    the call; and the response that holds it. *)
Record TagCall := {
  tc_name : str;
  tc_between : str;
  tc_input : str;
  tc_after : str
}.

Definition call_body (c : TagCall) : str :=
  tc_name c ++ py "</tool>" ++ tc_between c ++ py "<input>" ++ tc_input c
  ++ py "</input>" ++ tc_after c.

Definition render_call (c : TagCall) : str := py "<tool>" ++ call_body c.

(** A text without the character [<]. *)
Definition tag_free (s : str) : Prop := Forall (λ c, c ≠ 60%N) s.

Definition call_free (c : TagCall) : Prop :=
  tag_free (tc_name c) ∧ tag_free (tc_between c) ∧ tag_free (tc_input c)
  ∧ tag_free (tc_after c).

(** A response with two calls. *)
Definition sample_calls : list TagCall :=
  [ {| tc_name := py " bash "; tc_between := py " ";
       tc_input := py "ls -la"; tc_after := py " Then I read them: " |};
    {| tc_name := py "python"; tc_between := [];
       tc_input := py " print(open('a.txt').read()) "; tc_after := [] |} ].


(** * Properties *)

(** ** The matcher against the meaning of a pattern *)

Lemma rep_match_sound {R} g p s : ∀ lo hi (k : str → option R) x,
  rep_match g lo hi p s k = Some x →
  ∃ w s', s = w ++ s' ∧ Forall (λ c, p c = true) w ∧ lo ≤ length w
          ∧ (∀ h, hi = Some h → length w ≤ h) ∧ k s' = Some x.
Proof.
  induction s as [|c s IH]; intros lo hi k x H.
  - assert (Hk : lo = 0 ∧ k [] = Some x).
    { destruct g, hi as [[|h]|], lo; simpl in H; try done;
        destruct (k []); by simplify_eq. }
    destruct Hk as [-> Hk]. exists [], [].
    repeat split; auto; simpl; intros; lia.
  - assert (Hc : (lo = 0 ∧ k (c :: s) = Some x)
                 ∨ (hi ≠ Some 0 ∧ p c = true
                    ∧ rep_match g (pred lo) (pred <$> hi) p s k = Some x)).
    { destruct g, hi as [[|h]|], lo; simpl in H;
        repeat case_match; simplify_eq; try done;
        first [ by left | by right ]. }
    destruct Hc as [[-> Hk]|(Hhi & Hp & Hrec)].
    + exists [], (c :: s). repeat split; auto; simpl; intros; lia.
    + apply IH in Hrec as (w & s' & -> & Hall & Hlo & Hh & Hk).
      exists (c :: w), s'. repeat split; auto; simpl; [lia|].
      intros h ->. destruct h as [|h]; [done|].
      specialize (Hh h eq_refl). lia.
Qed.

Lemma rmatch_sound {R} r : ∀ s caps (k : str → list str → option R) x,
  rmatch r s caps k = Some x →
  ∃ w s' caps', s = w ++ s' ∧ matches r w ∧ k s' caps' = Some x.
Proof.
  induction r as [|p|r1 IH1 r2 IH2|r1 IH1 r2 IH2|g lo hi p|r IH];
    intros s caps k x H; simpl in H.
  - exists [], s, caps. repeat split; auto. constructor.
  - destruct s as [|c s]; [done|]. destruct (p c) eqn:Hp; [|done].
    exists [c], s, caps. repeat split; auto. by constructor.
  - apply IH1 in H as (w1 & s1 & caps1 & -> & Hm1 & H).
    apply IH2 in H as (w2 & s2 & caps2 & -> & Hm2 & H).
    exists (w1 ++ w2), s2, caps2. rewrite <- (assoc_L (++)).
    repeat split; auto. by constructor.
  - destruct (rmatch r1 s caps k) eqn:H1.
    + simplify_eq. apply IH1 in H1 as (w & s' & caps' & -> & Hm & H).
      exists w, s', caps'. repeat split; auto. by apply m_or_l.
    + apply IH2 in H as (w & s' & caps' & -> & Hm & H).
      exists w, s', caps'. repeat split; auto. by apply m_or_r.
  - apply rep_match_sound in H as (w & s' & -> & Hall & Hlo & Hh & Hk).
    exists w, s', caps. repeat split; auto. by constructor.
  - apply IH in H as (w & s' & caps' & -> & Hm & H).
    eexists w, s', _. repeat split; eauto. by constructor.
Qed.

Lemma rep_match_complete {R} g p (k : str → option R) s' :
  is_Some (k s') → ∀ w lo hi,
  Forall (λ c, p c = true) w → lo ≤ length w →
  (∀ h, hi = Some h → length w ≤ h) →
  is_Some (rep_match g lo hi p (w ++ s') k).
Proof.
  intros Hk w. induction w as [|c w IH]; intros lo hi Hall Hlo Hhi.
  - simpl in Hlo. assert (lo = 0) as -> by lia.
    destruct Hk as [y Hk].
    destruct s' as [|c s'], g, hi as [[|h]|]; simpl; rewrite ?Hk; eauto;
      repeat case_match; simplify_eq; eauto.
  - inversion Hall as [|?? Hp Hall']; subst.
    assert (Hrec : is_Some (rep_match g (pred lo) (pred <$> hi) p (w ++ s') k)).
    { apply IH; auto; [simpl in Hlo; lia|].
      intros h Hh. destruct hi as [h'|]; [|done]. simpl in Hh. simplify_eq.
      specialize (Hhi h' eq_refl). simpl in Hhi. lia. }
    assert (Hne : hi ≠ Some 0).
    { intros ->. specialize (Hhi 0 eq_refl). simpl in Hhi. lia. }
    destruct Hrec as [x Hrec].
    destruct g, hi as [[|h]|], lo; simpl in *; rewrite ?Hp, ?Hrec; try done;
      eauto; repeat case_match; eauto.
Qed.

Lemma rmatch_complete {R} r w :
  matches r w → ∀ s' caps (k : str → list str → option R),
  (∀ caps', is_Some (k s' caps')) → is_Some (rmatch r (w ++ s') caps k).
Proof.
  induction 1 as [|p c Hp|r1 r2 w1 w2 _ IH1 _ IH2|r1 r2 w _ IH|r1 r2 w _ IH
                  |g lo hi p w Hall Hlo Hhi|r w _ IH]; intros s' caps k Hk; simpl.
  - done.
  - by rewrite Hp.
  - rewrite <- (assoc_L (++)). apply IH1. intros caps'. by apply IH2.
  - destruct (IH s' caps k Hk) as [x ->]. eauto.
  - destruct (rmatch r1 (w ++ s') caps k); eauto.
  - apply rep_match_complete; auto.
  - apply IH. intros caps'. apply Hk.
Qed.

Lemma match_here_sound r s w caps :
  match_here r s = Some (w, caps) → matches r w ∧ ∃ post, s = w ++ post.
Proof.
  unfold match_here. intros H.
  apply rmatch_sound in H as (w' & s' & caps' & -> & Hm & H). simplify_eq.
  rewrite length_app, Nat.add_sub, take_app_length. eauto.
Qed.

Lemma match_here_complete r w post :
  matches r w → is_Some (match_here r (w ++ post)).
Proof. intros H. apply rmatch_complete; eauto. Qed.

(** [re.search] finds a match exactly when a matching text occurs. *)
Lemma search_sound r s w caps :
  search r s = Some (w, caps) → matches r w ∧ occurs_in w s.
Proof.
  induction s as [|c s IH]; simpl; intros H.
  - destruct (match_here r []) as [m|] eqn:Hm; [|done]. simplify_eq.
    apply match_here_sound in Hm as [? [post ?]]. split; [done|].
    by exists [], post.
  - destruct (match_here r (c :: s)) as [m|] eqn:Hm.
    + simplify_eq. apply match_here_sound in Hm as [? [post ?]].
      split; [done|]. by exists [], post.
    + apply IH in H as [? (pre & post & ->)]. split; [done|].
      by exists (c :: pre), post.
Qed.

Lemma search_unfold r s :
  search r s =
  match match_here r s with
  | Some m => Some m
  | None => match s with [] => None | _ :: s' => search r s' end
  end.
Proof. by destruct s. Qed.

Lemma search_complete r s w :
  matches r w → occurs_in w s → is_Some (search r s).
Proof.
  intros Hm (pre & post & ->). induction pre as [|c pre IH].
  - destruct (match_here_complete r w post Hm) as [m Hm'].
    rewrite search_unfold. simpl. rewrite Hm'. eauto.
  - simpl. destruct (match_here r (c :: pre ++ w ++ post)); eauto.
Qed.

Lemma search_iff r s :
  is_Some (search r s) ↔ ∃ w, matches r w ∧ occurs_in w s.
Proof.
  split.
  - intros [[w caps] H]. exists w. by eapply search_sound.
  - intros (w & Hm & Ho). by eapply search_complete.
Qed.

Lemma findall_go_unfold r s :
  findall_go r s 0 =
  match match_here r s with
  | Some (w, caps) =>
    (w, caps) :: match s with
                 | [] => []
                 | _ :: s' => findall_go r s' (length w - 1)
                 end
  | None => match s with [] => [] | _ :: s' => findall_go r s' 0 end
  end.
Proof. by destruct s. Qed.

(** Every match found is a text of the pattern and occurs in the input. *)
Lemma findall_go_sound r s : ∀ skip m,
  m ∈ findall_go r s skip → matches r m.1 ∧ occurs_in m.1 s.
Proof.
  assert (Hcons : ∀ (c : N) s w, occurs_in w s → occurs_in w (c :: s)).
  { intros c s0 w (pre & post & ->). by exists (c :: pre), post. }
  induction s as [|c s IH]; intros skip m Hin.
  - destruct skip; simpl in Hin; [|by apply elem_of_nil in Hin].
    destruct (match_here r []) as [[w caps]|] eqn:Hm;
      [|by apply elem_of_nil in Hin].
    apply list_elem_of_singleton in Hin as ->.
    apply match_here_sound in Hm as [? [post ?]]. split; [done|].
    by exists [], post.
  - destruct skip as [|n].
    + rewrite findall_go_unfold in Hin.
      destruct (match_here r (c :: s)) as [[w caps]|] eqn:Hm.
      * apply elem_of_cons in Hin as [->|Hin].
        -- apply match_here_sound in Hm as [? [post ?]]. split; [done|].
           by exists [], post.
        -- apply IH in Hin as [? ?]. auto.
      * apply IH in Hin as [? ?]. auto.
    + simpl in Hin. apply IH in Hin as [? ?]. auto.
Qed.

(** Nothing is found exactly when [re.search] finds nothing. *)
Lemma finditer_nil r s : finditer r s = [] ↔ search r s = None.
Proof.
  unfold finditer. induction s as [|c s IH].
  - simpl. destruct (match_here r []) as [[w caps]|]; split; done.
  - rewrite findall_go_unfold, search_unfold.
    destruct (match_here r (c :: s)) as [[w caps]|]; [split; done|]. apply IH.
Qed.

(** ** Order-preserving removal of duplicates *)

Lemma first_occurrences_elem l x : x ∈ first_occurrences l ↔ x ∈ l.
Proof.
  induction l as [|y l IH]; simpl; [done|].
  rewrite !elem_of_cons, list_elem_of_filter, IH.
  destruct (decide (x = y)); naive_solver.
Qed.

Lemma first_occurrences_NoDup l : NoDup (first_occurrences l).
Proof.
  induction l as [|y l IH]; simpl; constructor.
  - rewrite list_elem_of_filter. naive_solver.
  - by apply NoDup_filter.
Qed.

Lemma first_occurrences_sublist l : first_occurrences l `sublist_of` l.
Proof.
  induction l as [|y l IH]; simpl; [done|].
  apply sublist_skip. etrans; [apply sublist_filter|done].
Qed.

Lemma filter_all {A} (P : A → Prop) `{∀ x, Decision (P x)} (l : list A) :
  (∀ x, P x) → filter P l = l.
Proof.
  intros HP. induction l as [|x l IH]; [done|].
  rewrite filter_cons_True by done. by rewrite IH.
Qed.

Lemma unique_loop_spec flags : ∀ seen unique_flags,
  unique_loop flags seen unique_flags
  = unique_flags ++ filter (λ y, y ∉ seen) (first_occurrences flags).
Proof.
  induction flags as [|x flags IH]; intros seen acc; simpl.
  - by rewrite app_nil_r.
  - case_bool_decide as Hx; rewrite IH.
    + rewrite filter_cons_False by auto. f_equal.
      rewrite list_filter_filter. apply list_filter_iff. set_solver.
    + rewrite filter_cons_True by done. rewrite <- (assoc_L (++)). simpl.
      do 2 f_equal. rewrite list_filter_filter. apply list_filter_iff.
      set_solver.
Qed.

Lemma dict_fromkeys_spec l : Agent.dict_fromkeys l = first_occurrences l.
Proof.
  unfold Agent.dict_fromkeys.
  assert (H : ∀ keys,
    foldl (λ keys x, if bool_decide (x ∈ keys) then keys else keys ++ [x]) keys l
    = keys ++ filter (λ y, y ∉ keys) (first_occurrences l)).
  { induction l as [|x l IH]; intros keys; simpl.
    - by rewrite app_nil_r.
    - case_bool_decide as Hx; rewrite IH.
      + rewrite filter_cons_False by auto. f_equal.
        rewrite list_filter_filter. apply list_filter_iff. set_solver.
      + rewrite filter_cons_True by done. rewrite <- (assoc_L (++)). simpl.
        do 2 f_equal. rewrite list_filter_filter. apply list_filter_iff.
        set_solver. }
  rewrite H. simpl. apply filter_all. intros x. apply not_elem_of_nil.
Qed.

Lemma extract_flags_spec text :
  extract_flags text = first_occurrences (findall0 flag_pattern text).
Proof.
  unfold extract_flags. rewrite unique_loop_spec. simpl.
  apply filter_all. intros x. apply not_elem_of_nil.
Qed.

(** ** The goal-token detector *)

(** C8.  The goal-token detector ([_extract_flags] of the flag validator
    and the candidates of [_detect_flags] of the agent) returns the
    matches of the goal-token pattern in the order of their first
    occurrence, each once: the result has no duplicate, has the same
    members as the list of matches and is a subsequence of it; every
    candidate is a text of the pattern that occurs in the input; the
    result is empty exactly when no text of the pattern occurs in the
    input.  It finds [picoCTF{abc_123}], the variant [picoC:F{abc_123}]
    with a substituted separator, and both in other letter case. *)
Theorem goal_token_detector :
  (∀ text,
     extract_flags text = first_occurrences (findall0 flag_pattern text)
     ∧ NoDup (extract_flags text)
     ∧ (∀ c, c ∈ extract_flags text ↔ c ∈ findall0 flag_pattern text)
     ∧ extract_flags text `sublist_of` findall0 flag_pattern text
     ∧ (∀ c, c ∈ extract_flags text → matches flag_pattern c ∧ occurs_in c text)
     ∧ (extract_flags text = []
        ↔ ¬ ∃ w, matches flag_pattern w ∧ occurs_in w text))
  ∧ (∀ ai_response tool_results,
       Agent.detect_candidates ai_response tool_results
       = extract_flags (ai_response ++ py " " ++ join (py " ") tool_results))
  ∧ extract_flags (py "the flag is picoCTF{abc_123}.") = [py "picoCTF{abc_123}"]
  ∧ extract_flags (py "the flag is picoC:F{abc_123}.") = [py "picoC:F{abc_123}"]
  ∧ extract_flags (py "PICOCTF{abc_123} and pico:tf{abc_123}")
    = [py "PICOCTF{abc_123}"; py "pico:tf{abc_123}"]
  ∧ extract_flags (py "picoCTF{b} picoCTF{a} picoCTF{b} picoCTF{c} picoCTF{a}")
    = [py "picoCTF{b}"; py "picoCTF{a}"; py "picoCTF{c}"]
  ∧ extract_flags (py "no token here: pico{abc}, CTF{abc}, picoCTF{}") = [].
Proof.
  split; [|split; [|by vm_compute]].
  - intros text. rewrite extract_flags_spec.
    split; [done|]. split; [apply first_occurrences_NoDup|].
    split; [apply first_occurrences_elem|].
    split; [apply first_occurrences_sublist|]. split.
    + intros c Hc. rewrite first_occurrences_elem in Hc.
      unfold findall0 in Hc. apply list_elem_of_fmap in Hc as (m & -> & Hm).
      by apply findall_go_sound in Hm.
    + rewrite <- search_iff, <- eq_None_not_Some, <- finditer_nil.
      unfold findall0. destruct (finditer flag_pattern text); simpl; split; done.
  - intros ai_response tool_results. unfold Agent.detect_candidates.
    by rewrite dict_fromkeys_spec, extract_flags_spec.
Qed.

(** ** The placeholder filter *)

Lemma rmatch_lits {R} l : ∀ s caps (k : str → list str → option R),
  rmatch (lits l) (l ++ s) caps k = k s caps.
Proof.
  induction l as [|c l IH]; intros s caps k; simpl; [done|].
  unfold ch. by rewrite N.eqb_refl.
Qed.

(** A greedy repetition followed by a character outside the class takes
    the whole run, when the rest of the pattern accepts what follows. *)
Lemma rep_match_greedy_run {R} p (k : str → option R) c rest x :
  p c = false → k (c :: rest) = Some x → ∀ body lo,
  Forall (λ a, p a = true) body → lo ≤ length body →
  rep_match true lo None p (body ++ c :: rest) k = Some x.
Proof.
  intros Hc Hk body. induction body as [|a body IH]; intros lo Hall Hlo.
  - simpl in Hlo. assert (lo = 0) as -> by lia. simpl. by rewrite Hc.
  - inversion Hall as [|?? Ha Hall']; subst. simpl. rewrite Ha.
    rewrite IH; [done|done|simpl in Hlo; lia].
Qed.

(** A literal, a group of at least one character of a class, a literal
    that starts outside the class: the match on a text of that shape. *)
Lemma match_here_delimited pre body c suf post p :
  Forall (λ a, p a = true) body → 0 < length body → p c = false →
  match_here (Cat (Cat (lits pre) (Grp (plus p))) (lits (c :: suf)))
    (pre ++ body ++ (c :: suf) ++ post)
  = Some (pre ++ body ++ c :: suf, [body]).
Proof.
  intros Hall Hlen Hc. unfold match_here, plus.
  cbn [rmatch]. rewrite rmatch_lits.
  change ((c :: suf) ++ post) with (c :: (suf ++ post)).
  apply rep_match_greedy_run; [done| |done|lia].
  change (c :: (suf ++ post)) with ((c :: suf) ++ post).
  rewrite rmatch_lits. f_equal.
  rewrite !length_app.
  replace (length body + (length (c :: suf) + length post)
           - (length (c :: suf) + length post)) with (length body) by lia.
  rewrite take_app_length. f_equal.
  replace (length pre + (length body + (length (c :: suf) + length post))
           - length post)
    with (length (pre ++ body ++ c :: suf)) by (rewrite !length_app; lia).
  replace (pre ++ body ++ (c :: suf) ++ post)
    with ((pre ++ body ++ c :: suf) ++ post)
    by (by rewrite <- !(assoc_L (++))).
  by rewrite take_app_length.
Qed.

Lemma nset_brace_run body :
  N_in 125 body = false → Forall (λ a, nset [125%N] a = true) body.
Proof.
  intros Hno. apply Forall_forall. intros a Ha. unfold nset, set. simpl.
  rewrite orb_false_r. apply negb_true_iff, N.eqb_neq. intros ->.
  assert (N_in 125 body = true); [|congruence].
  unfold N_in. apply existsb_exists. exists 125%N.
  split; [by apply list_elem_of_In|apply N.eqb_refl].
Qed.

Lemma content_pattern_body body :
  0 < length body → N_in 125 body = false →
  search content_pattern (py "picoCTF{" ++ body ++ py "}")
  = Some (py "picoCTF{" ++ body ++ py "}", [body]).
Proof.
  intros Hlen Hno. rewrite search_unfold.
  change (py "}") with ([125%N] ++ []) at 1.
  change content_pattern
    with (Cat (Cat (lits (py "picoCTF{")) (Grp (plus (nset [125%N]))))
              (lits [125%N])).
  rewrite match_here_delimited; [done| |done|done].
  by apply nset_brace_run.
Qed.

Lemma matches_lits l w : matches (lits l) w → w = l.
Proof.
  revert w. induction l as [|c l IH]; intros w H; simpl in H.
  - by inversion H.
  - inversion H as [| |?? w1 w2 H1 H2| | | |]; subst.
    inversion H1 as [|? a Ha| | | | |]; subst.
    unfold ch in Ha. apply N.eqb_eq in Ha as ->.
    simpl. f_equal. by apply IH.
Qed.

Lemma matches_delimited pre p suf w :
  matches (Cat (Cat (lits pre) (plus p)) (lits suf)) w →
  ∃ body, w = pre ++ body ++ suf
          ∧ Forall (λ a, p a = true) body ∧ 0 < length body.
Proof.
  intros H.
  inversion H as [| |?? w12 w3 H12 H3| | | |]; subst.
  inversion H12 as [| |?? w1 w2 H1 H2| | | |]; subst.
  apply matches_lits in H1 as ->. apply matches_lits in H3 as ->.
  inversion H2 as [| | | | |????? Hall Hlo _|]; subst.
  exists w2. rewrite <- (assoc_L (++)). split; [done|]. split; [done|lia].
Qed.

(** What the caller of the filter passes (main.py lines 623-636): the
    prefix in its exact spelling, a body without closing brace, the
    closing brace. *)
Lemma strict_candidate_shape response flag caps :
  search strict_flag_pattern response = Some (flag, caps) →
  ∃ body, flag = py "picoCTF{" ++ body ++ py "}"
          ∧ 0 < length body ∧ N_in 125 body = false.
Proof.
  intros H. apply search_sound in H as [H _].
  apply matches_delimited in H as (body & -> & Hall & Hlen).
  exists body. split; [done|]. split; [done|].
  apply not_true_iff_false. intros Hin.
  apply existsb_exists in Hin as (a & Ha & Heq). apply N.eqb_eq in Heq as <-.
  apply list_elem_of_In in Ha.
  eapply Forall_forall in Hall; [|done]. by vm_compute in Hall.
Qed.

(** C9.  [is_placeholder_flag] is true for [picoCTF{...}],
    [picoCTF{FLAG}] and [picoCTF{xxxx}], false for
    [picoCTF{thisislikelyreal_42}], and true for every candidate (the
    prefix [picoCTF{], a body without closing brace, the closing brace)
    whose body is shorter than 3 or longer than 100 characters; the
    candidates its caller finds in a response are of that shape. *)
Theorem placeholder_filter :
  is_placeholder_flag (py "picoCTF{...}") = true
  ∧ is_placeholder_flag (py "picoCTF{FLAG}") = true
  ∧ is_placeholder_flag (py "picoCTF{xxxx}") = true
  ∧ is_placeholder_flag (py "picoCTF{thisislikelyreal_42}") = false
  ∧ (∀ body,
       N_in 125 body = false →
       0 < length body < 3 ∨ 100 < length body →
       is_placeholder_flag (py "picoCTF{" ++ body ++ py "}") = true)
  ∧ (∀ response flag caps,
       search strict_flag_pattern response = Some (flag, caps) →
       ∃ body, flag = py "picoCTF{" ++ body ++ py "}"
               ∧ 0 < length body ∧ N_in 125 body = false).
Proof.
  do 4 (split; [by vm_compute|]). split; [|apply strict_candidate_shape].
  intros body Hno Hlen. unfold is_placeholder_flag.
  destruct (existsb _ invalid_patterns); [done|].
  rewrite content_pattern_body by (done || lia). simpl.
  destruct Hlen as [Hlen|Hlen].
  - rewrite bool_decide_eq_true_2 by lia. done.
  - rewrite (bool_decide_eq_true_2 (100 < _)) by lia. by rewrite orb_true_r.
Qed.

Lemma placeholder_filter_witness :
  N_in 125 (py "ab") = false
  ∧ (0 < length (py "ab") < 3 ∨ 100 < length (py "ab"))
  ∧ is_placeholder_flag (py "picoCTF{" ++ py "ab" ++ py "}") = true.
Proof.
  split; [reflexivity|]. split; [left; simpl; lia|].
  apply (proj1 (proj2 (proj2 (proj2 (proj2 placeholder_filter)))) (py "ab"));
    [reflexivity|left; simpl; lia].
Defined.

(** Outside that shape the length test does not apply: a candidate of
    the tolerant detector with another spelling of the prefix is kept
    whatever the length of its body. *)
Example placeholder_other_spelling :
  is_placeholder_flag (py "picoctf{ab}") = false
  ∧ is_placeholder_flag (py "picoC:F{ab}") = false.
Proof. by vm_compute. Qed.

(** ** The context optimizer *)

Lemma startswith_iff s p : startswith s p = true ↔ ∃ post, s = p ++ post.
Proof.
  revert s. induction p as [|a p IH]; intros s; simpl.
  - destruct s; simpl; split; eauto.
  - destruct s as [|b s].
    + split; [done|]. by intros [post ?].
    + rewrite andb_true_iff, N.eqb_eq, IH. split.
      * intros [-> [post ->]]. by exists post.
      * intros [post Heq]. simplify_eq. eauto.
Qed.

Lemma contains_iff hay needle : contains hay needle = true ↔ occurs_in needle hay.
Proof.
  induction hay as [|c hay IH]; simpl.
  - rewrite orb_false_r, startswith_iff. split.
    + intros [post ->]. by exists [], post.
    + intros (pre & post & Heq). destruct pre; [by exists post|done].
  - rewrite orb_true_iff, startswith_iff, IH. split.
    + intros [[post ->]|(pre & post & ->)].
      * by exists [], post.
      * by exists (c :: pre), post.
    + intros (pre & post & Heq). destruct pre as [|a pre].
      * left. by exists post.
      * right. simpl in Heq. injection Heq as _ Heq. by exists pre, post.
Qed.

Lemma notable_iff result :
  Optimizer.notable result = true
  ↔ holds_goal_token result ∨ holds_error_word result.
Proof.
  assert (H : bool_decide (is_Some (search flag_pattern result))
              || existsb (λ error_word, contains (lower result) error_word)
                   Optimizer.error_words = true
              ↔ holds_goal_token result ∨ holds_error_word result).
  { rewrite orb_true_iff, bool_decide_eq_true, search_iff, existsb_exists.
    apply or_iff_compat_l. split.
    - intros (kw & Hin & Hc). exists kw.
      split; [by apply list_elem_of_In|by apply contains_iff].
    - intros (kw & Hin & Hc). exists kw.
      split; [by apply list_elem_of_In|by apply contains_iff]. }
  destruct result as [|c result]; [|exact H].
  rewrite <- H. by vm_compute.
Qed.

(** C5.  [should_send_full_context] is true exactly when the round is a
    multiple of the interval, or there are at most three tasks, or some
    recent result holds a goal token or one of the error words [error],
    [failed], [exception], [traceback]; with two tasks at round 7 the
    context is the full one under the default interval 5. *)
Theorem should_send_full_context_iff :
  (∀ self current_round task_count recent_results,
     Optimizer.full_context_interval self ≠ 0%Z →
     Optimizer.should_send_full_context self current_round task_count
       recent_results = true
     ↔ (Optimizer.full_context_interval self | current_round)%Z
       ∨ task_count ≤ 3
       ∨ ∃ result, result ∈ recent_results
                   ∧ (holds_goal_token result ∨ holds_error_word result))
  ∧ Optimizer.full_context_interval Optimizer.init = 5%Z
  ∧ Optimizer.error_words
    = [py "error"; py "failed"; py "exception"; py "traceback"]
  ∧ (∀ tree recent_results,
       length (V3.tasks tree) = 2 →
       Optimizer.kind
         (Optimizer.get_optimized_task_context Optimizer.init (Some tree) 7
            recent_results) = Optimizer.full).
Proof.
  split; [|split; [done|split; [done|]]].
  - intros self current_round task_count recent_results Hne.
    unfold Optimizer.should_send_full_context.
    rewrite <- Z.mod_divide by done.
    case_bool_decide as Hmod; [by intuition|].
    case_bool_decide as Hcount; [by intuition|].
    rewrite existsb_exists. split.
    + intros (r & Hin & Hr). right; right. exists r.
      split; [by apply list_elem_of_In|by apply notable_iff].
    + intros [?|[?|(r & Hin & Hr)]]; [done|done|]. exists r.
      split; [by apply list_elem_of_In|by apply notable_iff].
  - intros tree recent_results Hlen.
    unfold Optimizer.get_optimized_task_context,
      Optimizer.should_send_full_context.
    rewrite Hlen. simpl. done.
Qed.

Lemma should_send_full_context_iff_witness :
  Optimizer.full_context_interval Optimizer.init ≠ 0%Z
  ∧ length (V3.tasks two_tasks) = 2
  ∧ Optimizer.should_send_full_context Optimizer.init 7 2 [] = true
  ∧ Optimizer.kind
      (Optimizer.get_optimized_task_context Optimizer.init (Some two_tasks) 7
         []) = Optimizer.full.
Proof.
  split; [by vm_compute|]. split; [reflexivity|]. split.
  - apply (proj1 should_send_full_context_iff Optimizer.init 7%Z 2 []);
      [by vm_compute|right; left; lia].
  - apply (proj2 (proj2 (proj2 should_send_full_context_iff)) two_tasks []).
    reflexivity.
Defined.

(** C6, as the code has it.  The estimate of a full or recent context is
    the length of its content divided by 4; the empty context, returned
    when the agent has no tree, carries the fixed text of 21 characters
    and the fixed estimate 20. *)
Theorem token_estimate_by_kind self task_tree current_round recent_results :
  let c := Optimizer.get_optimized_task_context self task_tree current_round
             recent_results in
  match Optimizer.kind c with
  | Optimizer.empty =>
    task_tree = None
    ∧ Optimizer.content c = py "No tasks recorded yet"
    ∧ Optimizer.token_estimate c = 20
  | Optimizer.recent | Optimizer.full =>
    is_Some task_tree
    ∧ Optimizer.token_estimate c = length (Optimizer.content c) / 4
  end.
Proof.
  unfold Optimizer.get_optimized_task_context.
  destruct task_tree as [tree|]; simpl; [|done].
  destruct (Optimizer.should_send_full_context _ _ _ _); simpl; eauto.
Qed.

(** C6, as stated, fails on the empty context: 21 characters give 5,
    the estimate is 20. *)
Lemma token_estimate_empty_counterexample :
  let c := Optimizer.get_optimized_task_context Optimizer.init None 1 [] in
  Optimizer.kind c = Optimizer.empty
  ∧ length (Optimizer.content c) / 4 = 5
  ∧ Optimizer.token_estimate c = 20
  ∧ Optimizer.token_estimate c ≠ length (Optimizer.content c) / 4.
Proof. by vm_compute. Qed.

(** ** The latest tool result in the next prompt *)




(** ** The round *)



(** The input of 100001 characters is sent as its first 100000
    characters and the 70 characters of the marker; the twelve messages
    become ten. *)
Example content_guard_lengths :
  let guarded := Agent.guard_content long_input (Agent.messages loaded_agent) in
  Z.of_nat (length guarded.1) = 100070%Z ∧ length guarded.2 = 10.
Proof. by vm_compute. Qed.

Lemma interact_round w self user_input input_source :
  let r := Agent.interact w self user_input input_source in
  let g := Agent.guard_content user_input (Agent.messages self) in
  Agent.current_round r.1 = (Agent.current_round self + 1)%Z
  ∧ match Agent.invoke w g.1 g.2 with
    | Agent.Raised e =>
      Agent.conversation_history r.1 = Agent.conversation_history self
      ∧ r.2 = py "Round " ++ str_of_Z (Agent.current_round self + 1)
              ++ py " failed: " ++ e
    | Agent.Replied output _ =>
      ∃ record,
        Agent.conversation_history r.1
        = Agent.conversation_history self ++ [record]
        ∧ Agent.round_number record = (Agent.current_round self + 1)%Z
        ∧ Agent.human_input record = g.1
        ∧ Agent.ai_response record = output
        ∧ Agent.input_source record = input_source
        ∧ r.2 = output
    end.
Proof.
  unfold Agent.interact.
  destruct (Agent.guard_content user_input (Agent.messages self)) as [i h].
  simpl. destruct (Agent.invoke w i h) as [e|output steps]; simpl; [done|].
  destruct (match (foldl _ _ _).1.1 with [] => _ | _ => _ end) as [[??]?].
  simpl. split; [done|]. eexists. repeat split; done.
Qed.

Lemma interact_in_order w self user_input input_source :
  ledger_in_order self →
  ledger_in_order (Agent.interact w self user_input input_source).1.
Proof.
  intros (Hpos & Hsorted & Hbound).
  pose proof (interact_round w self user_input input_source) as [Hr Hl].
  simpl in Hr, Hl. unfold ledger_in_order. rewrite Hr.
  split; [lia|].
  destruct (Agent.invoke w _ _) as [e|output steps].
  - destruct Hl as [-> _]. split; [done|].
    eapply Forall_impl; [done|]. simpl. lia.
  - destruct Hl as (record & -> & Hn & _). rewrite fmap_app. simpl.
    rewrite Hn. split.
    + apply StronglySorted_app_2; [|done|repeat constructor].
      intros a b Ha Hb. apply list_elem_of_singleton in Hb as ->.
      eapply Forall_forall in Hbound; [|done]. simpl in Hbound. lia.
    + apply Forall_app. split.
      * eapply Forall_impl; [done|]. simpl. lia.
      * apply Forall_singleton. lia.
Qed.

Lemma run_snoc w self inputs i :
  Agent.run w self (inputs ++ [i])
  = (Agent.interact w (Agent.run w self inputs) i.1 i.2).1.
Proof. unfold Agent.run. by rewrite foldl_app. Qed.

(** C2, as the code has it.  Every call of [interact] advances the round
    counter by one.  A round in which the model answers appends one
    record with that round number, the input as sent and the answer; a
    round in which the model call raises appends nothing and returns the
    text of the error after [Round n failed: ].  In a session from a
    fresh agent the counter is the number of calls, the recorded round
    numbers increase strictly and lie between 1 and the counter, and
    they are 1, 2, ... without gap when no model call raises. *)
Theorem round_counter_and_ledger (w : Agent.World) :
  (∀ self user_input input_source,
     let r := Agent.interact w self user_input input_source in
     let g := Agent.guard_content user_input (Agent.messages self) in
     Agent.current_round r.1 = (Agent.current_round self + 1)%Z
     ∧ match Agent.invoke w g.1 g.2 with
       | Agent.Raised e =>
         Agent.conversation_history r.1 = Agent.conversation_history self
         ∧ r.2 = py "Round " ++ str_of_Z (Agent.current_round self + 1)
                 ++ py " failed: " ++ e
       | Agent.Replied output _ =>
         ∃ record,
           Agent.conversation_history r.1
           = Agent.conversation_history self ++ [record]
           ∧ Agent.round_number record = (Agent.current_round self + 1)%Z
           ∧ Agent.human_input record = g.1
           ∧ Agent.ai_response record = output
           ∧ Agent.input_source record = input_source
           ∧ r.2 = output
       end)
  ∧ Agent.current_round Agent.init = 0%Z
  ∧ (∀ inputs,
       let a := Agent.run w Agent.init inputs in
       Agent.current_round a = Z.of_nat (length inputs)
       ∧ StronglySorted Z.lt
           (Agent.round_number <$> Agent.conversation_history a)
       ∧ Forall (λ n, 1 ≤ n ≤ Agent.current_round a)%Z
           (Agent.round_number <$> Agent.conversation_history a))
  ∧ (∀ inputs,
       (∀ user_input history, ∃ output steps,
          Agent.invoke w user_input history = Agent.Replied output steps) →
       Agent.round_number
         <$> Agent.conversation_history (Agent.run w Agent.init inputs)
       = (λ n, Z.of_nat n) <$> seq 1 (length inputs)).
Proof.
  split; [apply interact_round|]. split; [done|]. split.
  - intros inputs. simpl.
    induction inputs as [|i inputs IH] using rev_ind.
    + split; [done|]. split; constructor.
    + rewrite run_snoc, length_app. simpl.
      destruct IH as (Hc & Hs & Hb).
      pose proof (interact_round w (Agent.run w Agent.init inputs) i.1 i.2)
        as [Hr _]. simpl in Hr.
      split; [rewrite Hr, Hc; lia|].
      apply interact_in_order. split; [lia|done].
  - intros inputs Hok.
    assert (H : Agent.round_number
                  <$> Agent.conversation_history (Agent.run w Agent.init inputs)
                = (λ n, Z.of_nat n) <$> seq 1 (length inputs)
                ∧ Agent.current_round (Agent.run w Agent.init inputs)
                  = Z.of_nat (length inputs)); [|by destruct H].
    induction inputs as [|i inputs IH] using rev_ind; [done|].
    rewrite run_snoc, length_app. simpl. destruct IH as [IHl IHc].
    pose proof (interact_round w (Agent.run w Agent.init inputs) i.1 i.2)
      as [Hr Hl]. simpl in Hr, Hl.
    split; [|rewrite Hr, IHc; lia].
    destruct (Hok (Agent.guard_content i.1
                     (Agent.messages (Agent.run w Agent.init inputs))).1
                  (Agent.guard_content i.1
                     (Agent.messages (Agent.run w Agent.init inputs))).2)
      as (output & steps & Hinv).
    rewrite Hinv in Hl. destruct Hl as (record & -> & Hn & _).
    rewrite fmap_app, IHl, seq_app, fmap_app. simpl.
    rewrite Hn, IHc. do 3 f_equal. lia.
Qed.

Lemma round_counter_and_ledger_witness :
  (∀ user_input history, ∃ output steps,
     Agent.invoke steady_world user_input history
     = Agent.Replied output steps)
  ∧ Agent.round_number
      <$> Agent.conversation_history
            (Agent.run steady_world Agent.init
               [(py "start", py "agent"); (py "continue", py "human")])
    = (λ n, Z.of_nat n) <$> seq 1 2.
Proof.
  assert (H : ∀ user_input history, ∃ output steps,
            Agent.invoke steady_world user_input history
            = Agent.Replied output steps).
  { intros. eexists _, _. reflexivity. }
  split; [exact H|].
  exact (proj2 (proj2 (proj2 (round_counter_and_ledger steady_world)))
           [(py "start", py "agent"); (py "continue", py "human")] H).
Defined.

(** C2, as stated, fails when the model call raises: the first round of
    this session is consumed without a record, and the ledger of the
    session starts at round 2. *)
Lemma failed_round_not_recorded_counterexample :
  let r1 := Agent.interact sample_world Agent.init (py "boom") (py "agent") in
  let a2 := Agent.run sample_world Agent.init
              [(py "boom", py "agent"); (py "go on", py "agent")] in
  Agent.current_round r1.1 = 1%Z
  ∧ Agent.conversation_history r1.1 = []
  ∧ r1.2 = py "Round 1 failed: timeout"
  ∧ Agent.current_round a2 = 2%Z
  ∧ Agent.round_number <$> Agent.conversation_history a2 = [2%Z]
  ∧ Agent.round_number <$> Agent.conversation_history a2 ≠ [1%Z; 2%Z].
Proof. repeat split; by vm_compute. Qed.

(** ** Lists of tasks *)

Section SortFacts.
Context {A : Type} (key : A → Z).

Lemma insert_sorted_perm x l : insert_sorted key x l ≡ₚ x :: l.
Proof.
  induction l as [|y l IH]; simpl; [done|].
  case_match; [done|]. rewrite IH. apply Permutation_swap.
Qed.

Lemma sort_by_perm l : sort_by key l ≡ₚ l.
Proof.
  induction l as [|x l IH]; simpl; [done|].
  by rewrite insert_sorted_perm, IH.
Qed.

Lemma sort_by_length l : length (sort_by key l) = length l.
Proof. by rewrite sort_by_perm. Qed.




(** The index found is the first one with the key. *)
Lemma find_index_Some k (l : list A) i :
  find_index (λ t, bool_decide (key t = k)) l = Some i →
  ∃ t, l !! i = Some t ∧ key t = k.
Proof.
  revert i. induction l as [|x l IH]; intros i H; simpl in H; [done|].
  case_bool_decide as Hk.
  - simplify_eq. by exists x.
  - destruct (find_index _ l) as [j|] eqn:Hj; [|done]. simpl in H.
    simplify_eq. by apply IH.
Qed.

Lemma find_index_is_Some k l :
  is_Some (find_index (λ t, bool_decide (key t = k)) l) ↔ k ∈ key <$> l.
Proof.
  induction l as [|x l IH]; simpl.
  - split; [by intros [??]|]. by intros ?%elem_of_nil.
  - case_bool_decide as Hk.
    + split; [|eauto]. intros _. rewrite <- Hk. apply elem_of_cons. by left.
    + rewrite elem_of_cons, <- IH. split.
      * intros [i Hi]. right. destruct (find_index _ l); [eauto|done].
      * intros [?|[j Hj]]; [done|]. rewrite Hj. eauto.
Qed.

Lemma find_index_None k l :
  find_index (λ t, bool_decide (key t = k)) l = None ↔ k ∉ key <$> l.
Proof. by rewrite eq_None_not_Some, find_index_is_Some. Qed.

Lemma keys_alter (f : A → A) (i : nat) (l : list A) :
  (∀ t, key (f t) = key t) → key <$> alter f i l = key <$> l.
Proof.
  intros Hf. apply list_eq. intros j. rewrite !list_lookup_fmap.
  destruct (decide (i = j)) as [->|Hne].
  - rewrite list_lookup_alter_eq. destruct (l !! j); simpl; [|done].
    by rewrite Hf.
  - by rewrite list_lookup_alter_ne.
Qed.


Lemma find_last_index_Some p (l : list A) i :
  find_last_index p l = Some i → ∃ t, l !! i = Some t ∧ p t = true.
Proof.
  revert i. induction l as [|x l IH]; intros i H; simpl in H; [done|].
  destruct (find_last_index p l) as [j|] eqn:Hj.
  - simplify_eq. by apply IH.
  - destruct (p x) eqn:Hp; [|done]. simplify_eq. by exists x.
Qed.

Lemma max_index_Some (l : list A) : l ≠ [] → ∃ i t, max_index key l = Some i ∧ l !! i = Some t.
Proof.
  induction l as [|x l IH]; [done|]. intros _. simpl.
  destruct l as [|y l]; [by exists 0, x|].
  destruct IH as (i & t & Hi & Ht); [done|]. rewrite Hi, Ht.
  case_match; [by exists (S i), t|by exists 0, x].
Qed.
End SortFacts.






(** ** The task trees: identifiers *)





Lemma V1_extract_watermark self text now :
  V1.current_task_id (V1.extract_tasks_from_response self text now).1
  = V1.current_task_id self.
Proof.
  unfold V1.extract_tasks_from_response. by destruct (foldl _ _ _).
Qed.











(** ** Re-applying a directive *)




(** ** The watermark of the task manager *)









(** The first task tree never moves its watermark. *)
Lemma V1_watermark_fixed self text now tool input result :
  V1.current_task_id (V1.extract_tasks_from_response self text now).1
  = V1.current_task_id self
  ∧ V1.current_task_id (V1.add_tool_result self tool input result now).1
    = V1.current_task_id self.
Proof.
  split; [apply V1_extract_watermark|].
  unfold V1.add_tool_result. case_match; [done|].
  repeat case_match; done.
Qed.





(** ** The frame of a tool result *)

Lemma V1_target_index_lookup ts :
  ts ≠ [] → ∃ i target, V1.target_index ts = Some i ∧ ts !! i = Some target.
Proof.
  intros Hne. unfold V1.target_index.
  destruct (find_last_index V1.is_in_progress ts) as [i|] eqn:Hi.
  - apply find_last_index_Some in Hi as (t & Ht & _). eauto.
  - by apply max_index_Some.
Qed.

Lemma V3_target_index_lookup ts :
  ts ≠ [] → ∃ i target, V3.target_index ts = Some i ∧ ts !! i = Some target.
Proof.
  intros Hne. unfold V3.target_index.
  destruct (find_last_index V3.is_in_progress ts) as [i|] eqn:Hi.
  - apply find_last_index_Some in Hi as (t & Ht & _). eauto.
  - destruct ts as [|t0 ts]; [done|].
    destruct (lookup_lt_is_Some_2 (t0 :: ts) (length (t0 :: ts) - 1))
      as [t Ht]; [simpl; lia|]. eauto.
Qed.

(** C10.  A call of [add_tool_result] with a tool other than the
    task-reporting tool of the version, on a tree with at least one
    task, adds and removes no task, leaves identifier, description,
    status and time stamp of every task as they are, appends exactly one
    subtask, for this tool, to the dispatch target, and leaves the
    subtasks of every other task as they are; title and watermark are
    unchanged. *)
Theorem tool_result_frame :
  (∀ self tool_name tool_input tool_result now,
     tool_name ≠ py "report_task_update" → V1.tasks self ≠ [] →
     let self' := (V1.add_tool_result self tool_name tool_input tool_result
                     now).1 in
     ∃ i target subtask,
       V1.target_index (V1.tasks self) = Some i
       ∧ V1.tasks self !! i = Some target
       ∧ V1.sub_tool subtask = tool_name
       ∧ V1.sub_input subtask = truncate_dots 100 tool_input
       ∧ V1.sub_result subtask = truncate_dots 200 tool_result
       ∧ V1.tasks self' = <[i := V1.add_subtask target subtask]> (V1.tasks self)
       ∧ length (V1.tasks self') = length (V1.tasks self)
       ∧ V1.challenge_title self' = V1.challenge_title self
       ∧ V1.current_task_id self' = V1.current_task_id self
       ∧ ∀ j t, V1.tasks self !! j = Some t →
           ∃ t', V1.tasks self' !! j = Some t'
                 ∧ V1.id t' = V1.id t
                 ∧ V1.description t' = V1.description t
                 ∧ V1.status t' = V1.status t
                 ∧ V1.timestamp t' = V1.timestamp t
                 ∧ V1.subtasks t'
                   = if decide (j = i) then V1.subtasks t ++ [subtask]
                     else V1.subtasks t)
  ∧ (∀ self tool_name tool_input tool_result now,
       tool_name ≠ py "task_manager" → V3.tasks self ≠ [] →
       let self' := (V3.add_tool_result self tool_name tool_input tool_result
                       now).1 in
       ∃ i target subtask,
         V3.target_index (V3.tasks self) = Some i
         ∧ V3.tasks self !! i = Some target
         ∧ V3.sub_tool subtask = tool_name
         ∧ V3.sub_input subtask = truncate_dots 200 tool_input
         ∧ V3.sub_result subtask = truncate_dots 500 tool_result
         ∧ V3.tasks self' = <[i := V3.add_subtask target subtask]> (V3.tasks self)
         ∧ length (V3.tasks self') = length (V3.tasks self)
         ∧ V3.challenge_title self' = V3.challenge_title self
         ∧ V3.current_task_id self' = V3.current_task_id self
         ∧ ∀ j t, V3.tasks self !! j = Some t →
             ∃ t', V3.tasks self' !! j = Some t'
                   ∧ V3.id t' = V3.id t
                   ∧ V3.description t' = V3.description t
                   ∧ V3.status t' = V3.status t
                   ∧ V3.timestamp t' = V3.timestamp t
                   ∧ V3.parent_id t' = V3.parent_id t
                   ∧ V3.details t' = V3.details t
                   ∧ V3.subtasks t'
                     = if decide (j = i) then V3.subtasks t ++ [subtask]
                       else V3.subtasks t).
Proof.
  split.
  - intros self tool_name tool_input tool_result now Htool Hne self'.
    subst self'. unfold V1.add_tool_result, str_eqb.
    rewrite (bool_decide_eq_false_2 _ Htool).
    destruct (V1_target_index_lookup _ Hne) as (i & target & Hi & Ht).
    destruct (V1.tasks self) as [|t0 ts] eqn:Hts; [done|].
    rewrite Hi, Ht. cbn [fst].
    exists i, target,
      {| V1.sub_id := str_of_Z (V1.id target) ++ py "."
                      ++ str_of_nat (length (V1.subtasks target) + 1);
         V1.sub_tool := tool_name;
         V1.sub_input := truncate_dots 100 tool_input;
         V1.sub_result := truncate_dots 200 tool_result;
         V1.sub_timestamp := now |}.
    unfold V1.set_tasks.
    cbn [V1.tasks V1.challenge_title V1.current_task_id V1.sub_tool
         V1.sub_input V1.sub_result].
    split; [done|]. split; [done|].
    split; [reflexivity|]. split; [reflexivity|]. split; [reflexivity|].
    split; [reflexivity|].
    split; [by rewrite length_insert|]. split; [done|]. split; [done|].
    intros j t Hj. destruct (decide (j = i)) as [->|Hji].
    + rewrite Ht in Hj. simplify_eq.
      rewrite list_lookup_insert_eq by (by eapply lookup_lt_Some).
      eexists. split; [done|]. by repeat split.
    + rewrite list_lookup_insert_ne by done.
      exists t. split; [done|]. by repeat split.
  - intros self tool_name tool_input tool_result now Htool Hne self'.
    subst self'. unfold V3.add_tool_result, str_eqb.
    rewrite (bool_decide_eq_false_2 _ Htool).
    destruct (V3_target_index_lookup _ Hne) as (i & target & Hi & Ht).
    destruct (V3.tasks self) as [|t0 ts] eqn:Hts; [done|].
    rewrite Hi, Ht. cbn [fst].
    exists i, target,
      {| V3.sub_id := Z.of_nat (length (V3.subtasks target) + 1);
         V3.sub_tool := tool_name;
         V3.sub_input := truncate_dots 200 tool_input;
         V3.sub_result := truncate_dots 500 tool_result;
         V3.sub_timestamp := now |}.
    cbn [V3.tasks V3.challenge_title V3.current_task_id V3.sub_tool
         V3.sub_input V3.sub_result].
    split; [done|]. split; [done|].
    split; [reflexivity|]. split; [reflexivity|]. split; [reflexivity|].
    split; [reflexivity|].
    split; [by rewrite length_insert|]. split; [done|]. split; [done|].
    intros j t Hj. destruct (decide (j = i)) as [->|Hji].
    + rewrite Ht in Hj. simplify_eq.
      rewrite list_lookup_insert_eq by (by eapply lookup_lt_Some).
      eexists. split; [done|]. by repeat split.
    + rewrite list_lookup_insert_ne by done.
      exists t. split; [done|]. by repeat split.
Qed.

Lemma tool_result_frame_witness :
  py "bash" ≠ py "report_task_update"
  ∧ py "bash" ≠ py "task_manager"
  ∧ V1.tasks two_tasks_v1 ≠ []
  ∧ V3.tasks two_tasks ≠ []
  ∧ length (V1.tasks (V1.add_tool_result two_tasks_v1 (py "bash") (py "ls")
                        (py "out.txt") (py "t1")).1) = 2
  ∧ length (V3.tasks (V3.add_tool_result two_tasks (py "bash") (py "ls")
                        (py "out.txt") (py "t1")).1) = 2.
Proof.
  assert (H1 : py "bash" ≠ py "report_task_update") by (by vm_compute).
  assert (H3 : py "bash" ≠ py "task_manager") by (by vm_compute).
  assert (N1 : V1.tasks two_tasks_v1 ≠ []) by (by vm_compute).
  assert (N3 : V3.tasks two_tasks ≠ []) by (by vm_compute).
  repeat (split; [assumption|]). split.
  - destruct (proj1 tool_result_frame two_tasks_v1 (py "bash") (py "ls")
                (py "out.txt") (py "t1") H1 N1)
      as (i & target & subtask & _ & _ & _ & _ & _ & _ & Hlen & _).
    exact Hlen.
  - destruct (proj2 tool_result_frame two_tasks (py "bash") (py "ls")
                (py "out.txt") (py "t1") H3 N3)
      as (i & target & subtask & _ & _ & _ & _ & _ & _ & Hlen & _).
    exact Hlen.
Defined.

(** * Further properties of the code *)

(** ** The task trees after an extraction *)
















(** ** The task trees after a tool result *)


Lemma truncate_dots_short n text :
  length text ≤ n → truncate_dots n text = text.
Proof.
  intros H. unfold truncate_dots. rewrite bool_decide_eq_false_2; [done|lia].
Qed.

(** The shape of the tree after [add_tool_result], for every tree. *)
Lemma V1_add_tool_result_shape self tool_name tool_input tool_result now :
  tool_name ≠ py "report_task_update" →
  ∃ i target,
    V1.target_index (V1_seeded self now) = Some i
    ∧ V1_seeded self now !! i = Some target
    ∧ (V1.add_tool_result self tool_name tool_input tool_result now).1
      = V1.set_tasks self
          (<[i := V1.add_subtask target
                    {| V1.sub_id := str_of_Z (V1.id target) ++ py "."
                         ++ str_of_nat (length (V1.subtasks target) + 1);
                       V1.sub_tool := tool_name;
                       V1.sub_input := truncate_dots 100 tool_input;
                       V1.sub_result := truncate_dots 200 tool_result;
                       V1.sub_timestamp := now |}]> (V1_seeded self now)).
Proof.
  intros Htool. unfold V1.add_tool_result, str_eqb.
  rewrite (bool_decide_eq_false_2 _ Htool).
  fold (V1_seeded self now).
  destruct (V1_target_index_lookup (V1_seeded self now))
    as (i & target & Hi & Ht).
  { unfold V1_seeded. by destruct (V1.tasks self). }
  rewrite Hi, Ht. eauto.
Qed.

Lemma V3_add_tool_result_shape self tool_name tool_input tool_result now :
  tool_name ≠ py "task_manager" →
  ∃ i target,
    V3.target_index (V3_seeded self now) = Some i
    ∧ V3_seeded self now !! i = Some target
    ∧ V3.tasks (V3.add_tool_result self tool_name tool_input tool_result now).1
      = <[i := V3.add_subtask target
                 {| V3.sub_id := Z.of_nat (length (V3.subtasks target) + 1);
                    V3.sub_tool := tool_name;
                    V3.sub_input := truncate_dots 200 tool_input;
                    V3.sub_result := truncate_dots 500 tool_result;
                    V3.sub_timestamp := now |}]> (V3_seeded self now)
    ∧ V3.current_task_id
        (V3.add_tool_result self tool_name tool_input tool_result now).1
      = match V3.tasks self with [] => 1%Z | _ => V3.current_task_id self end.
Proof.
  intros Htool. unfold V3.add_tool_result, str_eqb.
  rewrite (bool_decide_eq_false_2 _ Htool).
  destruct (V3_target_index_lookup (V3_seeded self now))
    as (i & target & Hi & Ht).
  { unfold V3_seeded. by destruct (V3.tasks self). }
  unfold V3_seeded in *. exists i, target.
  destruct (V3.tasks self) as [|t0 ts]; rewrite Hi, Ht; done.
Qed.

Lemma sum_list_insert {A} (f : A → nat) (l : list A) i x y :
  l !! i = Some x → f y = S (f x) →
  sum_list (f <$> <[i:=y]> l) = S (sum_list (f <$> l)).
Proof.
  revert i. induction l as [|z l IH]; intros i Hi Hf; [done|].
  destruct i as [|i].
  - simpl in Hi. simplify_eq. simpl. lia.
  - simpl in Hi. change (<[S i:=y]> (z :: l)) with (z :: <[i:=y]> l).
    rewrite !fmap_cons. simpl. rewrite (IH i) by done. lia.
Qed.

(** X4.  A call of [add_tool_result] for a tool other than the
    task-reporting tool, on any tree, also one without task, leaves a
    tree with at least one task and exactly one more subtask than
    before; a call for the task-reporting tool changes nothing and
    answers [skipped]. *)
Theorem tool_result_counted :
  (∀ self tool_name tool_input tool_result now,
     tool_name ≠ py "report_task_update" →
     let self' := (V1.add_tool_result self tool_name tool_input tool_result
                     now).1 in
     V1.tasks self' ≠ []
     ∧ V1_subtask_total (V1.tasks self') = S (V1_subtask_total (V1.tasks self)))
  ∧ (∀ self tool_name tool_input tool_result now,
       tool_name ≠ py "task_manager" →
       let self' := (V3.add_tool_result self tool_name tool_input tool_result
                       now).1 in
       V3.tasks self' ≠ []
       ∧ V3_subtask_total (V3.tasks self')
         = S (V3_subtask_total (V3.tasks self)))
  ∧ (∀ self tool_input tool_result now,
       V1.add_tool_result self (py "report_task_update") tool_input
         tool_result now = (self, py "skipped"))
  ∧ (∀ self tool_input tool_result now,
       V3.add_tool_result self (py "task_manager") tool_input tool_result now
       = (self, py "skipped")).
Proof.
  split; [|split; [|split; done]].
  - intros self tool_name tool_input tool_result now Htool self'. subst self'.
    destruct (V1_add_tool_result_shape self tool_name tool_input tool_result
                now Htool) as (i & target & Hi & Ht & ->).
    unfold V1.set_tasks. cbn [V1.tasks]. split.
    + intros Hnil. apply (f_equal length) in Hnil.
      rewrite length_insert in Hnil. apply lookup_lt_Some in Ht.
      simpl in Hnil. lia.
    + unfold V1_subtask_total.
      rewrite (sum_list_insert _ _ _ target) by
        (done || (simpl; rewrite length_app; simpl; lia)).
      unfold V1_seeded. by destruct (V1.tasks self).
  - intros self tool_name tool_input tool_result now Htool self'. subst self'.
    destruct (V3_add_tool_result_shape self tool_name tool_input tool_result
                now Htool) as (i & target & Hi & Ht & -> & _).
    split.
    + intros Hnil. apply (f_equal length) in Hnil.
      rewrite length_insert in Hnil. apply lookup_lt_Some in Ht.
      simpl in Hnil. lia.
    + unfold V3_subtask_total.
      rewrite (sum_list_insert _ _ _ target) by
        (done || (simpl; rewrite length_app; simpl; lia)).
      unfold V3_seeded. by destruct (V3.tasks self).
Qed.

Lemma tool_result_counted_witness :
  py "bash" ≠ py "task_manager"
  ∧ V3_subtask_total
      (V3.tasks (V3.add_tool_result (V3.init (py "demo")) (py "bash") (py "ls")
                   (py "out.txt") (py "t1")).1)
    = S (V3_subtask_total (V3.tasks (V3.init (py "demo")))).
Proof.
  assert (H : py "bash" ≠ py "task_manager") by (by vm_compute).
  split; [exact H|].
  exact (proj2 (proj1 (proj2 tool_result_counted) (V3.init (py "demo"))
                 (py "bash") (py "ls") (py "out.txt") (py "t1") H)).
Defined.

(** A property of the identifier and the subtasks of every task, true of
    a task without subtask, is kept by the loops of the extraction. *)
Section KeptByExtraction.
Context (Q1 : Z → list V1.Subtask → Prop) (Q3 : Z → list V3.Subtask → Prop).
Hypothesis Q1_nil : ∀ k, Q1 k [].
Hypothesis Q3_nil : ∀ k, Q3 k [].





End KeptByExtraction.






(** ** The dispatch target *)

Lemma find_last_index_spec {A} (p : A → bool) (l : list A) :
  match find_last_index p l with
  | Some i =>
    ∃ t, l !! i = Some t ∧ p t = true
         ∧ ∀ j t', i < j → l !! j = Some t' → p t' = false
  | None => Forall (λ t, p t = false) l
  end.
Proof.
  induction l as [|x l IH]; simpl; [constructor|].
  destruct (find_last_index p l) as [i|].
  - destruct IH as (t & Ht & Hp & Hlater). exists t.
    split; [done|]. split; [done|].
    intros [|j] t' Hj Hl; [lia|]. simpl in Hl. eapply Hlater; [|done]. lia.
  - destruct (p x) eqn:Hp.
    + exists x. split; [done|]. split; [done|].
      intros [|j] t' Hj Hl; [lia|]. simpl in Hl.
      by eapply Forall_lookup_1 in IH.
    + by constructor.
Qed.

Lemma max_index_spec {A} (key : A → Z) (l : list A) :
  l ≠ [] →
  ∃ i t, max_index key l = Some i ∧ l !! i = Some t
         ∧ Forall (λ t', key t' ≤ key t)%Z l
         ∧ ∀ j t', j < i → l !! j = Some t' → (key t' < key t)%Z.
Proof.
  induction l as [|x l IH]; [done|]. intros _.
  destruct l as [|y l].
  { exists 0, x. simpl. split; [done|]. split; [done|].
    split; [by constructor|]. intros; lia. }
  destruct IH as (i & t & Hi & Ht & Hall & Hfirst); [done|].
  change (max_index key (x :: y :: l))
    with (match max_index key (y :: l) with
          | Some i => match (y :: l) !! i with
                      | Some y' => if (key x <? key y')%Z then Some (S i)
                                   else Some 0
                      | None => Some 0
                      end
          | None => Some 0
          end).
  rewrite Hi, Ht. destruct (key x <? key t)%Z eqn:Hx.
  - apply Z.ltb_lt in Hx. exists (S i), t. split; [done|]. split; [done|].
    split; [constructor; [lia|done]|].
    intros [|j] t' Hj Hl; simpl in Hl; [by simplify_eq|].
    eapply Hfirst; [|done]. lia.
  - apply Z.ltb_ge in Hx. exists 0, x. split; [done|]. split; [done|].
    split; [|intros; lia]. constructor; [lia|].
    eapply Forall_impl; [done|]. simpl. lia.
Qed.

(** X7.  The task a tool result is attached to is the last task in
    progress; when no task is in progress it is, in the first task tree,
    the first task among those of the highest identifier, and in the
    task manager the last task of the list, which has the highest
    identifier when the tasks are in the order of their identifiers (as
    after every extraction). *)
Theorem dispatch_target :
  (∀ ts i,
     V1.target_index ts = Some i →
     ∃ t, ts !! i = Some t
          ∧ ((V1.status t = py "in-progress"
              ∧ ∀ j t', i < j → ts !! j = Some t' →
                  V1.status t' ≠ py "in-progress")
             ∨ (Forall (λ t', V1.status t' ≠ py "in-progress") ts
                ∧ Forall (λ t', V1.id t' ≤ V1.id t)%Z ts
                ∧ ∀ j t', j < i → ts !! j = Some t' → (V1.id t' < V1.id t)%Z)))
  ∧ (∀ ts i,
       V3.target_index ts = Some i →
       ∃ t, ts !! i = Some t
            ∧ ((V3.status t = py "in-progress"
                ∧ ∀ j t', i < j → ts !! j = Some t' →
                    V3.status t' ≠ py "in-progress")
               ∨ (Forall (λ t', V3.status t' ≠ py "in-progress") ts
                  ∧ S i = length ts
                  ∧ (StronglySorted Z.le (V3.id <$> ts) →
                     Forall (λ t', V3.id t' ≤ V3.id t)%Z ts)))).
Proof.
  split.
  - intros ts i. unfold V1.target_index.
    pose proof (find_last_index_spec V1.is_in_progress ts) as Hl.
    destruct (find_last_index V1.is_in_progress ts) as [i'|].
    + intros [= ->]. destruct Hl as (t & Ht & Hp & Hlater).
      exists t. split; [done|]. left. split.
      * by apply bool_decide_eq_true in Hp.
      * intros j t' Hj Hl. specialize (Hlater j t' Hj Hl).
        by apply bool_decide_eq_false in Hlater.
    + intros Hm. destruct ts as [|t0 ts]; [done|].
      destruct (max_index_spec V1.id (t0 :: ts)) as (i' & t & Hi & Ht & Hall & Hf);
        [done|].
      rewrite Hi in Hm. simplify_eq. exists t. split; [done|]. right.
      split; [|done]. eapply Forall_impl; [exact Hl|].
      intros t' Hp. by apply bool_decide_eq_false in Hp.
  - intros ts i. unfold V3.target_index.
    pose proof (find_last_index_spec V3.is_in_progress ts) as Hl.
    destruct (find_last_index V3.is_in_progress ts) as [i'|].
    + intros [= ->]. destruct Hl as (t & Ht & Hp & Hlater).
      exists t. split; [done|]. left. split.
      * by apply bool_decide_eq_true in Hp.
      * intros j t' Hj Hl. specialize (Hlater j t' Hj Hl).
        by apply bool_decide_eq_false in Hlater.
    + intros Hi. destruct (decide (ts = [])) as [->|Hne]; [done|].
      assert (Hlen : S i = length ts).
      { destruct ts as [|t0 ts']; [done|]. simpl in *. simplify_eq. lia. }
      destruct (lookup_lt_is_Some_2 ts i) as [t Ht]; [lia|].
      exists t. split; [done|]. right. split.
      * eapply Forall_impl; [exact Hl|].
        intros t' Hp. by apply bool_decide_eq_false in Hp.
      * split; [done|]. intros Hsorted.
        assert (Hsplit : ts = take i ts ++ [t]).
        { rewrite <- (take_drop_middle ts i t Ht) at 1.
          by rewrite (drop_ge ts (S i)) by lia. }
        rewrite Hsplit in Hsorted |- *. rewrite fmap_app in Hsorted.
        apply StronglySorted_app in Hsorted as (Hlt & _ & _).
        apply Forall_app. split.
        -- apply Forall_forall. intros t' Ht'. apply Hlt.
           ++ apply list_elem_of_fmap. by exists t'.
           ++ simpl. by apply list_elem_of_singleton.
        -- apply Forall_singleton. lia.
Qed.

Lemma dispatch_target_witness :
  V3.target_index (V3.tasks four_task_tree) = Some 3
  ∧ ∃ t, V3.tasks four_task_tree !! 3 = Some t
         ∧ ((V3.status t = py "in-progress"
             ∧ ∀ j t', 3 < j → V3.tasks four_task_tree !! j = Some t' →
                 V3.status t' ≠ py "in-progress")
            ∨ (Forall (λ t', V3.status t' ≠ py "in-progress")
                 (V3.tasks four_task_tree)
               ∧ 4 = length (V3.tasks four_task_tree)
               ∧ (StronglySorted Z.le (V3.id <$> V3.tasks four_task_tree) →
                  Forall (λ t', V3.id t' ≤ V3.id t)%Z
                    (V3.tasks four_task_tree)))).
Proof.
  assert (H : V3.target_index (V3.tasks four_task_tree) = Some 3)
    by reflexivity.
  split; [exact H|].
  exact (proj2 dispatch_target (V3.tasks four_task_tree) 3 H).
Defined.

(** ** The status update of the task manager *)

Lemma sum_list_snoc_zero l : sum_list (l ++ [0]) = sum_list l.
Proof. induction l as [|x l IH]; simpl; lia. Qed.

Lemma normalize_status_valid stat : V3.normalize_status stat ∈ V3.valid_statuses.
Proof.
  unfold V3.normalize_status. case_bool_decide; [done|].
  apply elem_of_cons. by left.
Qed.

(** X8.  After [update_task_status] the tree holds a task with the given
    identifier whose status is one of [pending], [in-progress],
    [completed], [failed]: the status given is lowered, its underscores
    become hyphens, and anything else becomes [pending].  An existing
    task keeps its place and its subtasks, a new one is appended and
    raises the watermark to at least its identifier; the tasks with
    another identifier are left as they are, and identifiers bounded by
    the watermark stay so. *)
Theorem status_update_valid self task_id stat descr now :
  let self' := V3.update_task_status self task_id stat descr now in
  (∃ t, t ∈ V3.tasks self' ∧ V3.id t = task_id
        ∧ V3.status t = V3.normalize_status stat
        ∧ V3.status t ∈ V3.valid_statuses)
  ∧ V3.normalize_status (py "IN_PROGRESS") = py "in-progress"
  ∧ V3.normalize_status (py "done") = py "pending"
  ∧ (if bool_decide (task_id ∈ V3.id <$> V3.tasks self)
     then V3.id <$> V3.tasks self' = V3.id <$> V3.tasks self
          ∧ V3.current_task_id self' = V3.current_task_id self
     else V3.id <$> V3.tasks self' = (V3.id <$> V3.tasks self) ++ [task_id]
          ∧ V3.current_task_id self'
            = Z.max (V3.current_task_id self) task_id)
  ∧ V3_subtask_total (V3.tasks self') = V3_subtask_total (V3.tasks self)
  ∧ (∀ t, t ∈ V3.tasks self → V3.id t ≠ task_id → t ∈ V3.tasks self')
  ∧ (Forall (λ t, V3.id t ≤ V3.current_task_id self)%Z (V3.tasks self) →
     Forall (λ t, V3.id t ≤ V3.current_task_id self')%Z (V3.tasks self')).
Proof.
  intros self'. subst self'. unfold V3.update_task_status.
  pose proof (normalize_status_valid stat) as Hvalid.
  destruct (find_index _ (V3.tasks self)) as [i|] eqn:Hi; cbn [V3.tasks
    V3.current_task_id].
  - assert (Hk : task_id ∈ V3.id <$> V3.tasks self)
      by (apply find_index_is_Some; eauto).
    rewrite (bool_decide_eq_true_2 _ Hk).
    apply find_index_Some in Hi as (t & Ht & Hid).
    split.
    { eexists. split.
      - apply list_elem_of_lookup. exists i.
        rewrite list_lookup_alter_eq, Ht. reflexivity.
      - done. }
    split; [by vm_compute|]. split; [by vm_compute|].
    split; [split; [by apply keys_alter|done]|].
    split.
    { unfold V3_subtask_total. f_equal. apply list_eq. intros j.
      rewrite !list_lookup_fmap. destruct (decide (i = j)) as [->|Hne].
      - rewrite list_lookup_alter_eq. by destruct (V3.tasks self !! j).
      - by rewrite list_lookup_alter_ne. }
    split.
    { intros t' Ht' Hne. apply list_elem_of_lookup in Ht' as [j Hj].
      apply list_elem_of_lookup. exists j.
      rewrite list_lookup_alter_ne; [done|]. intros ->. congruence. }
    intros Hb. apply Forall_alter; [done|]. by intros t' _ Ht'.
  - apply find_index_None in Hi. rewrite (bool_decide_eq_false_2 _ Hi).
    split.
    { eexists. split; [apply elem_of_app; right; by apply
        list_elem_of_singleton|done]. }
    split; [by vm_compute|]. split; [by vm_compute|].
    split; [by rewrite fmap_app|].
    split.
    { unfold V3_subtask_total. rewrite fmap_app. simpl.
      apply sum_list_snoc_zero. }
    split; [intros t Ht _; apply elem_of_app; by left|].
    intros Hb. apply Forall_app. split.
    + eapply Forall_impl; [done|]. simpl. lia.
    + apply Forall_singleton. simpl. lia.
Qed.

(** ** The results guaranteed by the optimizer *)

Lemma slice_m3_m1_elem {A} (l : list A) x : x ∈ slice_m3_m1 l → x ∈ l.
Proof.
  unfold slice_m3_m1. intros H.
  by apply subseteq_take, subseteq_drop in H.
Qed.

Lemma slice_m3_m1_length {A} (l : list A) : length (slice_m3_m1 l) ≤ 2.
Proof. unfold slice_m3_m1. rewrite length_take, length_drop. lia. Qed.

Lemma is_truncated_in_tree_iff result recent_tasks :
  Optimizer.is_truncated_in_tree result recent_tasks = true
  ↔ ∃ task subtask,
      task ∈ recent_tasks ∧ subtask ∈ V3.subtasks task
      ∧ V3.sub_result subtask ≠ []
      ∧ occurs_in (strip (take 80 result)) (V3.sub_result subtask)
      ∧ length (V3.sub_result subtask) < length result.
Proof.
  unfold Optimizer.is_truncated_in_tree, slice_to.
  rewrite existsb_exists. split.
  - intros (task & Ht & Hs). apply existsb_exists in Hs as (sub & Hsub & Hb).
    apply andb_true_iff in Hb as [Hb H3]. apply andb_true_iff in Hb as [H1 H2].
    exists task, sub. rewrite <- !list_elem_of_In in *.
    apply bool_decide_eq_true in H1, H3. apply contains_iff in H2. done.
  - intros (task & sub & Ht & Hsub & H1 & H2 & H3). exists task.
    split; [by apply list_elem_of_In|]. apply existsb_exists. exists sub.
    split; [by apply list_elem_of_In|].
    rewrite !andb_true_iff, !bool_decide_eq_true, contains_iff. done.
Qed.

(** X9.  [_get_truncated_important_results] returns at most three
    results, each one of the recent results, each of more than 80
    characters after trimming, and each cut in the tree: one of the last
    two tasks has a subtask whose stored result is shorter than the
    result and contains the trimmed first 80 characters of it.  It
    returns nothing when there is no recent result. *)
Theorem truncated_results_sound task_tree recent_results :
  let found := Optimizer.get_truncated_important_results task_tree
                 recent_results in
  length found ≤ 3
  ∧ (recent_results = [] → found = [])
  ∧ ∀ result, result ∈ found →
      result ∈ recent_results
      ∧ 80 < length (strip result)
      ∧ ∃ task subtask,
          task ∈ slice_last 2 (V3.tasks task_tree)
          ∧ subtask ∈ V3.subtasks task
          ∧ V3.sub_result subtask ≠ []
          ∧ occurs_in (strip (take 80 result)) (V3.sub_result subtask)
          ∧ length (V3.sub_result subtask) < length result.
Proof.
  intros found. subst found. unfold Optimizer.get_truncated_important_results.
  destruct recent_results as [|r0 rs] eqn:Hrs.
  { simpl. split; [lia|]. split; [done|]. by intros result ?%elem_of_nil. }
  rewrite <- Hrs. split; [|split; [by rewrite Hrs|]]; clear Hrs.
  - rewrite length_app.
    pose proof (slice_m3_m1_length recent_results).
    pose proof (length_filter
      (λ result, 80 < length (strip result)
                 ∧ Optimizer.is_important_result result = true
                 ∧ Optimizer.is_truncated_in_tree result
                     (slice_last 2 (V3.tasks task_tree)) = true)
      (slice_m3_m1 recent_results)) as Hf.
    destruct (last recent_results); [case_match|]; simpl; lia.
  - intros result Hin. apply elem_of_app in Hin as [Hin|Hin].
    + destruct (last recent_results) as [latest|] eqn:Hlast;
        [|by apply elem_of_nil in Hin].
      destruct (bool_decide (80 < length (strip latest))) eqn:Hlen;
        [|by apply elem_of_nil in Hin].
      destruct (Optimizer.is_truncated_in_tree latest _) eqn:Htr;
        [|by apply elem_of_nil in Hin]. simpl in Hin.
      apply list_elem_of_singleton in Hin as ->.
      split; [by apply last_Some_elem_of|].
      split; [by apply bool_decide_eq_true in Hlen|].
      by apply is_truncated_in_tree_iff.
    + apply list_elem_of_filter in Hin as [(Hlen & _ & Htr) Hin].
      split; [by apply slice_m3_m1_elem|]. split; [done|].
      by apply is_truncated_in_tree_iff.
Qed.

Lemma lstrip_suffix s : ∃ pre, s = pre ++ lstrip s.
Proof.
  induction s as [|c s [pre IH]]; simpl; [by exists []|].
  destruct (is_space c); [|by exists []].
  exists (c :: pre). simpl. by f_equal.
Qed.

Lemma strip_occurs s : occurs_in (strip s) s.
Proof.
  unfold strip, rstrip.
  destruct (lstrip_suffix s) as [pre Hpre].
  destruct (lstrip_suffix (rev (lstrip s))) as [post Hpost].
  exists pre, (rev post). rewrite Hpre at 1. f_equal.
  rewrite <- (rev_involutive (lstrip s)) at 1. rewrite Hpost at 1.
  by rewrite rev_app_distr.
Qed.

Lemma occurs_in_app_l w s post : occurs_in w s → occurs_in w (s ++ post).
Proof.
  intros (a & b & ->). exists a, (b ++ post). by rewrite <- !(assoc_L (++)).
Qed.

(** X10.  A result of more than 503 characters that [add_tool_result]
    has just stored is seen as cut by the optimizer: in a session with
    at most two tasks, where the context is the full one, the truncated
    results of the next context hold that result in full when it is the
    most recent one and has more than 80 characters after trimming. *)
Theorem stored_result_guaranteed self tool_name tool_input tool_result now
    optimizer current_round earlier :
  tool_name ≠ py "task_manager" →
  length (V3.tasks self) ≤ 2 →
  503 < length tool_result →
  80 < length (strip tool_result) →
  let tree := (V3.add_tool_result self tool_name tool_input tool_result now).1 in
  let c := Optimizer.get_optimized_task_context optimizer (Some tree)
             current_round (earlier ++ [tool_result]) in
  Optimizer.is_truncated_in_tree tool_result (V3.tasks tree) = true
  ∧ Optimizer.kind c = Optimizer.full
  ∧ tool_result ∈ Optimizer.truncated_results c.
Proof.
  intros Htool Hfew Hlong Hstrip tree c.
  destruct (V3_add_tool_result_shape self tool_name tool_input tool_result
              now Htool) as (i & target & Hi & Ht & Htasks & _).
  fold tree in Htasks.
  assert (Hlen : length (V3.tasks tree) ≤ 2).
  { rewrite Htasks, length_insert. unfold V3_seeded.
    destruct (V3.tasks self); simpl in *; lia. }
  assert (Htr : Optimizer.is_truncated_in_tree tool_result (V3.tasks tree)
                = true).
  { apply is_truncated_in_tree_iff. eexists _, _. split.
    - apply list_elem_of_lookup. exists i. rewrite Htasks.
      apply list_lookup_insert_eq. by eapply lookup_lt_Some.
    - simpl. split; [apply elem_of_app; right; by apply
        list_elem_of_singleton|]. simpl.
      unfold truncate_dots, slice_to.
      rewrite bool_decide_eq_true_2 by lia.
      split; [by destruct (take 500 tool_result)|]. split.
      + apply occurs_in_app_l.
        replace (take 500 tool_result)
          with (take 80 tool_result ++ drop 80 (take 500 tool_result)).
        * apply occurs_in_app_l, strip_occurs.
        * rewrite <- (take_drop 80 (take 500 tool_result)) at 2.
          by rewrite take_take.
      + rewrite length_app, length_take.
        change (length (py "...")) with 3. lia. }
  split; [done|].
  subst c. unfold Optimizer.get_optimized_task_context,
    Optimizer.should_send_full_context.
  rewrite (bool_decide_eq_true_2 (length (V3.tasks tree) ≤ 3)) by lia.
  destruct (bool_decide _); simpl;
    (split; [done|]);
    unfold Optimizer.get_truncated_important_results;
    (destruct (earlier ++ [tool_result]) as [|r0 rs] eqn:Hrs;
      [by destruct earlier|]); rewrite <- Hrs, last_snoc;
    rewrite (bool_decide_eq_true_2 _ Hstrip);
    unfold slice_last; replace (length (V3.tasks tree) - 2) with 0 by lia;
    rewrite drop_0, Htr; apply elem_of_app; left;
    by apply list_elem_of_singleton.
Qed.

Lemma stored_result_guaranteed_witness :
  py "bash" ≠ py "task_manager"
  ∧ length (V3.tasks two_tasks) ≤ 2
  ∧ 503 < length raw_envelope_result
  ∧ 80 < length (strip raw_envelope_result)
  ∧ raw_envelope_result
    ∈ Optimizer.truncated_results
        (Optimizer.get_optimized_task_context Optimizer.init
           (Some (V3.add_tool_result two_tasks (py "bash") (py "cat out.json")
                    raw_envelope_result (py "t1")).1)
           7 ([py "first"] ++ [raw_envelope_result])).
Proof.
  assert (H1 : py "bash" ≠ py "task_manager") by (by vm_compute).
  assert (H2 : length (V3.tasks two_tasks) ≤ 2) by (vm_compute; lia).
  assert (H3 : 503 < length raw_envelope_result) by (vm_compute; lia).
  assert (H4 : 80 < length (strip raw_envelope_result)) by (vm_compute; lia).
  repeat (split; [assumption|]).
  exact (proj2 (proj2 (stored_result_guaranteed two_tasks (py "bash")
                         (py "cat out.json") raw_envelope_result (py "t1")
                         Optimizer.init 7 [py "first"] H1 H2 H3 H4))).
Defined.

(** ** What an extraction keeps *)














(** ** The tools of a round *)

Lemma step_loop_fold w steps : ∀ used results tree,
  foldl (Agent.step_loop w) (used, results, tree) steps
  = (used ++ ((λ s, s.1.1) <$> steps),
     results ++ ((λ s, Agent.parse_tool_result w s.2) <$> steps),
     foldl (λ t s, Agent.tree_add w t s.1.1 s.1.2
                     (Agent.parse_tool_result w s.2)) tree steps).
Proof.
  induction steps as [|[[n i] o] steps IH]; intros; simpl.
  - by rewrite !app_nil_r.
  - rewrite IH. by rewrite <- !(assoc_L (++)).
Qed.

Lemma call_loop_fold w calls : ∀ used results tree,
  foldl (Agent.call_loop w) (used, results, tree) calls
  = (used ++ (fst <$> calls),
     results ++ ((λ c, Agent.execute_tool w c.1 c.2) <$> calls),
     foldl (λ t c, Agent.tree_add w t c.1 c.2
                     (Agent.execute_tool w c.1 c.2)) tree calls).
Proof.
  induction calls as [|[n i] calls IH]; intros; simpl.
  - by rewrite !app_nil_r.
  - rewrite IH. by rewrite <- !(assoc_L (++)).
Qed.

(** The round in which the model answers, in closed form. *)
Lemma interact_replied w self user_input input_source output steps :
  let r := Agent.interact w self user_input input_source in
  let g := Agent.guard_content user_input (Agent.messages self) in
  Agent.invoke w g.1 g.2 = Agent.Replied output steps →
  let calls :=
    match default [] steps with
    | [] => if contains output (py "<tool>") && contains output (py "</tool>")
            then Agent.parse_tool_calls output else []
    | _ => []
    end in
  let tree1 :=
    (λ t, (V3.extract_tasks_from_response (Agent.json_updates w) t output
             (Agent.now w)).1) <$> Agent.task_tree self in
  ∃ record,
    Agent.conversation_history r.1
    = Agent.conversation_history self ++ [record]
    ∧ Agent.tools_used record
      = ((λ s, s.1.1) <$> default [] steps) ++ (fst <$> calls)
    ∧ Agent.last_tool_results r.1
      = ((λ s, Agent.parse_tool_result w s.2) <$> default [] steps)
        ++ ((λ c, Agent.execute_tool w c.1 c.2) <$> calls)
    ∧ Agent.task_tree r.1
      = foldl (λ t c, Agent.tree_add w t c.1 c.2
                        (Agent.execute_tool w c.1 c.2))
          (foldl (λ t s, Agent.tree_add w t s.1.1 s.1.2
                           (Agent.parse_tool_result w s.2))
             tree1 (default [] steps))
          calls
    ∧ Agent.last_flag_candidate r.1
      = Agent.detect_flags (Agent.last_flag_candidate self) output
          (Agent.last_tool_results r.1).
Proof.
  intros r g Hinv calls tree1. subst r. unfold Agent.interact.
  fold g. destruct g as [i h]. simpl in Hinv. rewrite Hinv.
  fold tree1. rewrite step_loop_fold. cbn [fst snd app].
  subst calls. destruct (default [] steps) as [|s ss] eqn:Hs.
  - cbn [fmap list_fmap foldl].
    destruct (contains output (py "<tool>") && contains output (py "</tool>")).
    + rewrite call_loop_fold. cbn [app]. eexists. cbn. repeat split; done.
    + eexists. cbn. repeat split; done.
  - cbn [fmap list_fmap]. eexists. cbn.
    rewrite !app_nil_r. repeat split; done.
Qed.

(** X12.  In a round in which the model answers, every tool used has one
    result, in the same order.  The steps the model executed take
    priority: when the answer carries steps, the tools used are those of
    the steps and the results their parsed observations, and the calls
    written as tags in the text are not run; the tags are parsed and
    run only when there is no step and the text holds an opening and a
    closing tool tag.  A round in which the model call raises leaves the
    tree, the results of the last round and the candidate as they
    were. *)
Theorem round_tools_and_results (w : Agent.World) self user_input
    input_source :
  let r := Agent.interact w self user_input input_source in
  let g := Agent.guard_content user_input (Agent.messages self) in
  match Agent.invoke w g.1 g.2 with
  | Agent.Raised _ =>
    Agent.task_tree r.1 = Agent.task_tree self
    ∧ Agent.last_tool_results r.1 = Agent.last_tool_results self
    ∧ Agent.last_flag_candidate r.1 = Agent.last_flag_candidate self
  | Agent.Replied output steps =>
    ∃ record,
      last (Agent.conversation_history r.1) = Some record
      ∧ length (Agent.tools_used record)
        = length (Agent.last_tool_results r.1)
      ∧ match default [] steps with
        | [] =>
          if contains output (py "<tool>") && contains output (py "</tool>")
          then Agent.tools_used record = fst <$> Agent.parse_tool_calls output
               ∧ Agent.last_tool_results r.1
                 = (λ c, Agent.execute_tool w c.1 c.2)
                     <$> Agent.parse_tool_calls output
          else Agent.tools_used record = []
               ∧ Agent.last_tool_results r.1 = []
        | ss =>
          Agent.tools_used record = (λ s, s.1.1) <$> ss
          ∧ Agent.last_tool_results r.1
            = (λ s, Agent.parse_tool_result w s.2) <$> ss
        end
  end.
Proof.
  intros r g.
  destruct (Agent.invoke w g.1 g.2) as [e|output steps] eqn:Hinv.
  - subst r. unfold Agent.interact. fold g. destruct g as [i h].
    simpl in Hinv. by rewrite Hinv.
  - destruct (interact_replied w self user_input input_source output steps
                Hinv) as (record & Hh & Hu & Hr & _).
    fold r in Hh, Hr. exists record. rewrite Hh, last_snoc, Hu, Hr.
    split; [done|]. split; [by rewrite !length_app, !length_fmap|].
    destruct (default [] steps) as [|s ss]; [|by rewrite !app_nil_r].
    by destruct (contains output (py "<tool>")
                 && contains output (py "</tool>")).
Qed.

(** ** The tree over a round *)





(** ** Placeholder words *)

Lemma sre_lower_letter c : (97 ≤ c ≤ 122)%N → sre_lower c = c.
Proof.
  intros Hc. unfold sre_lower. repeat case_match; try done;
    repeat match goal with
    | H : _ && _ = true |- _ => apply andb_true_iff in H as [??]
    | H : (_ <=? _)%N = true |- _ => apply N.leb_le in H
    | H : (_ =? _)%N = true |- _ => apply N.eqb_eq in H
    end; lia.
Qed.

Lemma chi_refl c : chi c c = true.
Proof. unfold chi, N_in. simpl. by rewrite N.eqb_refl. Qed.

Lemma matches_litsi_refl l : matches (litsi l) l.
Proof.
  induction l as [|c l IH]; simpl; [constructor|].
  apply (m_cat _ _ [c] l); [|done]. constructor. apply chi_refl.
Qed.

(** A text that Python lowers to a word of ASCII letters is a spelling
    of that word for the engine under [re.IGNORECASE]. *)
Lemma lower_matches_litsi word : ∀ target,
  Forall (λ c, 97 ≤ c ≤ 122)%N target →
  lower word = target → matches (litsi target) word.
Proof.
  induction word as [|x word IH]; intros target Hall Hlow.
  - simpl in Hlow. subst. constructor.
  - unfold lower in Hlow. simpl in Hlow. fold (lower word) in Hlow.
    unfold lower_char in Hlow.
    destruct ((65 <=? x) && (x <=? 90))%N eqn:Hup;
      [|destruct (x =? 8490)%N eqn:Hk; [|destruct (x =? 304)%N eqn:Hi]].
    + subst target. inversion Hall as [|?? Hc Hall']; subst. simpl.
      apply (m_cat _ _ [x] word); [|by apply IH]. constructor.
      unfold chi, N_in. simpl. rewrite (sre_lower_letter _ Hc).
      unfold sre_lower at 1. rewrite Hup. by rewrite N.eqb_refl.
    + subst target. inversion Hall as [|?? Hc Hall']; subst. simpl.
      apply (m_cat _ _ [x] word); [|by apply IH]. constructor.
      unfold chi, N_in. simpl. rewrite (sre_lower_letter _ Hc).
      unfold sre_lower at 1. rewrite Hup, Hk. done.
    + subst target. inversion Hall as [|?? _ Hall']; subst.
      inversion Hall' as [|?? Hc _]; subst. lia.
    + subst target. inversion Hall as [|?? Hc Hall']; subst. simpl.
      apply (m_cat _ _ [x] word); [|by apply IH]. constructor.
      apply chi_refl.
Qed.

Lemma sre_lower_brace x : sre_lower x = 125%N → x = 125%N.
Proof.
  unfold sre_lower. repeat case_match; try done;
    repeat match goal with
    | H : _ && _ = true |- _ => apply andb_true_iff in H as [??]
    | H : (_ <=? _)%N = true |- _ => apply N.leb_le in H
    end; lia.
Qed.

Lemma nseti_brace_run body :
  N_in 125 body = false → Forall (λ a, nseti [125%N] a = true) body.
Proof.
  intros Hno. apply Forall_forall. intros a Ha. unfold nseti, seti, N_in.
  simpl. rewrite orb_false_r. apply negb_true_iff, N.eqb_neq.
  intros ->%sre_lower_brace.
  assert (N_in 125 body = true); [|congruence].
  unfold N_in. apply existsb_exists. exists 125%N.
  split; [by apply list_elem_of_In|apply N.eqb_refl].
Qed.

Lemma invalid_pattern_rejects pattern flag w :
  pattern ∈ invalid_patterns → matches pattern w → occurs_in w flag →
  is_placeholder_flag flag = true.
Proof.
  intros Hp Hm Ho. unfold is_placeholder_flag.
  assert (existsb (λ pattern, bool_decide (is_Some (search pattern flag)))
            invalid_patterns = true) as ->; [|done].
  apply existsb_exists. exists pattern. split; [by apply list_elem_of_In|].
  apply bool_decide_eq_true. by eapply search_complete.
Qed.

Lemma occurs_in_refl s : occurs_in s s.
Proof. exists [], []. by rewrite app_nil_r. Qed.

Ltac each_char :=
  match goal with
  | |- Forall _ ?t =>
    let l := eval vm_compute in t in
    change t with l;
    repeat (apply Forall_cons; split; [lia|]); by apply Forall_nil
  end.

Lemma word_rejects target before word after :
  Cat (Cat (Cat (Cat (litsi (py "picoCTF{")) (star (nseti [125%N])))
                (litsi target)) (star (nseti [125%N])))
      (litsi [125%N]) ∈ invalid_patterns →
  Forall (λ c, 97 ≤ c ≤ 122)%N target →
  N_in 125 before = false → N_in 125 after = false →
  lower word = target →
  is_placeholder_flag (py "picoCTF{" ++ before ++ word ++ after ++ py "}")
  = true.
Proof.
  intros Hp Hall Hb Ha Hlow.
  eapply invalid_pattern_rejects; [exact Hp| |apply occurs_in_refl].
  replace (py "picoCTF{" ++ before ++ word ++ after ++ py "}")
    with ((((py "picoCTF{" ++ before) ++ word) ++ after) ++ [125%N])
    by (by rewrite <- !(assoc_L (++))).
  repeat apply m_cat.
  - apply matches_litsi_refl.
  - apply m_rep; [by apply nseti_brace_run|simpl; lia|done].
  - by apply lower_matches_litsi.
  - apply m_rep; [by apply nseti_brace_run|simpl; lia|done].
  - apply matches_litsi_refl.
Qed.

(** X14.  [is_placeholder_flag] rejects every candidate whose body holds
    one of the words [placeholder], [example], [template] in any letter
    case, whatever stands before and after the word in the body, and
    every candidate whose body is made of four or more letters [x] or
    [X]. *)
Theorem placeholder_words :
  (∀ before word after,
     N_in 125 before = false → N_in 125 after = false →
     lower word ∈ [py "placeholder"; py "example"; py "template"] →
     is_placeholder_flag
       (py "picoCTF{" ++ before ++ word ++ after ++ py "}") = true)
  ∧ (∀ body,
       Forall (λ c, c = 88%N ∨ c = 120%N) body → 4 ≤ length body →
       is_placeholder_flag (py "picoCTF{" ++ body ++ py "}") = true).
Proof.
  split.
  - intros before word after Hb Ha Hw.
    apply elem_of_cons in Hw as [Hw|Hw];
      [|apply elem_of_cons in Hw as [Hw|Hw];
        [|apply list_elem_of_singleton in Hw]].
    + apply (word_rejects (py "placeholder")); [| |done..].
      * unfold invalid_patterns. do 8 apply list_elem_of_further.
        apply list_elem_of_here.
      * each_char.
    + apply (word_rejects (py "example")); [| |done..].
      * unfold invalid_patterns. do 9 apply list_elem_of_further.
        apply list_elem_of_here.
      * each_char.
    + apply (word_rejects (py "template")); [| |done..].
      * unfold invalid_patterns. do 10 apply list_elem_of_further.
        apply list_elem_of_here.
      * each_char.
  - intros body Hall Hlen.
    eapply (invalid_pattern_rejects
              (Cat (Cat (litsi (py "picoCTF{")) (at_least 4 (seti (py "Xx"))))
                   (litsi [125%N]))); [| |apply occurs_in_refl].
    + unfold invalid_patterns. do 3 apply list_elem_of_further.
      apply list_elem_of_here.
    + replace (py "picoCTF{" ++ body ++ py "}")
        with ((py "picoCTF{" ++ body) ++ [125%N])
        by (by rewrite <- !(assoc_L (++))).
      repeat apply m_cat; [apply matches_litsi_refl| |apply matches_litsi_refl].
      apply m_rep; [|done|done].
      eapply Forall_impl; [done|]. by intros c [->| ->].
Qed.

Lemma placeholder_words_witness :
  N_in 125 (py "my_") = false ∧ N_in 125 (py "_flag") = false
  ∧ lower (py "ExAmPlE")
    ∈ [py "placeholder"; py "example"; py "template"]
  ∧ is_placeholder_flag
      (py "picoCTF{" ++ py "my_" ++ py "ExAmPlE" ++ py "_flag" ++ py "}")
    = true.
Proof.
  assert (H : lower (py "ExAmPlE")
              ∈ [py "placeholder"; py "example"; py "template"]).
  { apply list_elem_of_further, list_elem_of_here. }
  split; [reflexivity|]. split; [reflexivity|]. split; [exact H|].
  apply (proj1 placeholder_words (py "my_") (py "ExAmPlE") (py "_flag"));
    [reflexivity|reflexivity|exact H].
Defined.

(** ** The candidate of the agent *)

Lemma detect_candidates_sound ai_response tool_results c :
  c ∈ Agent.detect_candidates ai_response tool_results →
  matches flag_pattern c
  ∧ occurs_in c (ai_response ++ py " " ++ join (py " ") tool_results).
Proof.
  unfold Agent.detect_candidates. rewrite dict_fromkeys_spec.
  rewrite first_occurrences_elem. unfold findall0.
  intros (m & -> & Hm)%list_elem_of_fmap. by apply findall_go_sound in Hm.
Qed.

Lemma detect_flags_cases previous ai_response tool_results :
  (Agent.detect_candidates ai_response tool_results = []
   ∧ Agent.detect_flags previous ai_response tool_results = previous)
  ∨ ∃ c, Agent.detect_flags previous ai_response tool_results = Some c
         ∧ last (Agent.detect_candidates ai_response tool_results) = Some c.
Proof.
  unfold Agent.detect_flags.
  destruct (Agent.detect_candidates ai_response tool_results) as [|c0 cs]
    eqn:Hc using rev_ind; [by left|].
  right. rewrite last_snoc. eauto.
Qed.

(** X15.  The candidate the agent holds is replaced only by a later
    one: a round in which no goal token is detected keeps it, a round
    in which one is detected holds afterwards the last of the candidates
    of the round in the order of their first occurrence, which is a text
    of the goal-token pattern that occurs in the answer or in a tool
    result joined by blanks.  So in a session from a fresh agent the
    candidate, when there is one, is a text of the goal-token pattern,
    and a session never loses its candidate. *)
Theorem candidate_kept (w : Agent.World) :
  (∀ previous ai_response tool_results,
     let c := Agent.detect_flags previous ai_response tool_results in
     (Agent.detect_candidates ai_response tool_results = [] ∧ c = previous)
     ∨ ∃ f, c = Some f
            ∧ last (Agent.detect_candidates ai_response tool_results) = Some f
            ∧ matches flag_pattern f
            ∧ occurs_in f
                (ai_response ++ py " " ++ join (py " ") tool_results))
  ∧ (∀ inputs f,
       Agent.last_flag_candidate (Agent.run w Agent.init inputs) = Some f →
       matches flag_pattern f)
  ∧ (∀ self inputs,
       is_Some (Agent.last_flag_candidate self) →
       is_Some (Agent.last_flag_candidate (Agent.run w self inputs))).
Proof.
  assert (Hstep : ∀ self user_input input_source,
    let a := (Agent.interact w self user_input input_source).1 in
    Agent.last_flag_candidate a = Agent.last_flag_candidate self
    ∨ ∃ f, Agent.last_flag_candidate a = Some f ∧ matches flag_pattern f).
  { intros self user_input input_source a. subst a.
    destruct (Agent.invoke w
                (Agent.guard_content user_input (Agent.messages self)).1
                (Agent.guard_content user_input (Agent.messages self)).2)
      as [e|output steps] eqn:Hinv.
    - left. unfold Agent.interact.
      destruct (Agent.guard_content user_input (Agent.messages self))
        as [i h]. simpl in Hinv. by rewrite Hinv.
    - destruct (interact_replied w self user_input input_source output steps
                  Hinv) as (record & _ & _ & _ & _ & ->).
      destruct (detect_flags_cases (Agent.last_flag_candidate self) output
                  (Agent.last_tool_results
                     (Agent.interact w self user_input input_source).1))
        as [[_ ->]|(c & -> & Hc)]; [by left|].
      right. exists c. split; [done|].
      by apply last_Some_elem_of, detect_candidates_sound in Hc as [? _]. }
  split; [|split].
  - intros previous ai_response tool_results c. subst c.
    destruct (detect_flags_cases previous ai_response tool_results)
      as [?|(c & -> & Hc)]; [by left|].
    right. exists c. split; [done|]. split; [done|].
    by apply last_Some_elem_of, detect_candidates_sound in Hc.
  - intros inputs. induction inputs as [|i inputs IH] using rev_ind;
      intros f Hf; [done|].
    rewrite run_snoc in Hf.
    destruct (Hstep (Agent.run w Agent.init inputs) i.1 i.2)
      as [Heq|(f' & Hf' & Hm)].
    + rewrite Heq in Hf. by apply IH.
    + rewrite Hf' in Hf. by simplify_eq.
  - intros self inputs Hsome.
    induction inputs as [|i inputs IH] using rev_ind; [done|].
    rewrite run_snoc.
    destruct (Hstep (Agent.run w self inputs) i.1 i.2)
      as [->|(f' & -> & _)]; [done|eauto].
Qed.

(** ** The goal token of the conversation *)

Lemma first_flag_Some texts f :
  Agent.first_flag texts = Some f →
  matches Agent.picoctf_pattern f ∧ ∃ text, text ∈ texts ∧ occurs_in f text.
Proof.
  induction texts as [|text texts IH]; simpl; [done|].
  destruct (search Agent.picoctf_pattern text) as [[w caps]|] eqn:Hs.
  - intros [= <-]. apply search_sound in Hs as [? ?].
    split; [done|]. exists text. split; [apply elem_of_cons; by left|done].
  - intros (Hm & text' & Hin & Ho)%IH. split; [done|].
    exists text'. split; [apply elem_of_cons; by right|done].
Qed.

Lemma first_flag_None texts :
  Agent.first_flag texts = None ↔
  ∀ text w, text ∈ texts → matches Agent.picoctf_pattern w →
            ¬ occurs_in w text.
Proof.
  induction texts as [|text texts IH]; simpl.
  - split; [|done]. by intros _ text w ?%elem_of_nil.
  - destruct (search Agent.picoctf_pattern text) as [[w caps]|] eqn:Hs.
    + split; [done|]. intros H. apply search_sound in Hs as [Hm Ho].
      destruct (H text w); [apply elem_of_cons; by left|done|done].
    + rewrite IH. split.
      * intros H text' w' Hin Hm Ho.
        apply elem_of_cons in Hin as [Heq|Hin]; [subst text'|by eapply H].
        assert (is_Some (search Agent.picoctf_pattern text))
          as [? ?] by (by eapply search_complete). congruence.
      * intros H text' w' Hin. apply H, elem_of_cons. by right.
Qed.

Lemma conversation_texts self text :
  text ∈ flat_map (λ r, [Agent.ai_response r; Agent.human_input r])
           (rev (Agent.conversation_history self))
  ↔ ∃ r, r ∈ Agent.conversation_history self
         ∧ (text = Agent.ai_response r ∨ text = Agent.human_input r).
Proof.
  rewrite list_elem_of_In, in_flat_map. split.
  - intros (r & Hr & Ht). exists r.
    rewrite <- in_rev, <- list_elem_of_In in Hr. split; [done|].
    simpl in Ht. destruct Ht as [<-|[<-|[]]]; eauto.
  - intros (r & Hr & Ht). exists r.
    rewrite <- in_rev, <- list_elem_of_In. split; [done|].
    simpl. destruct Ht as [->| ->]; eauto.
Qed.

(** X16.  [extract_flag_from_conversation] returns a text of the pattern
    [picoCTF{...}] (in any letter case) that occurs in the answer or in
    the input of a recorded round, and returns nothing exactly when no
    text of the pattern occurs in any answer or input of the ledger.
    The latest round comes first and its answer before its input: when
    a text of the pattern occurs in the answer of the last record, the
    result is the leftmost match in that answer. *)
Theorem conversation_flag self :
  match Agent.extract_flag_from_conversation self with
  | Some f =>
    matches Agent.picoctf_pattern f
    ∧ ∃ r, r ∈ Agent.conversation_history self
           ∧ (occurs_in f (Agent.ai_response r)
              ∨ occurs_in f (Agent.human_input r))
  | None =>
    ∀ r w, r ∈ Agent.conversation_history self →
           matches Agent.picoctf_pattern w →
           ¬ occurs_in w (Agent.ai_response r)
           ∧ ¬ occurs_in w (Agent.human_input r)
  end
  ∧ ∀ r w, last (Agent.conversation_history self) = Some r →
           matches Agent.picoctf_pattern w →
           occurs_in w (Agent.ai_response r) →
           Agent.extract_flag_from_conversation self
           = fst <$> search Agent.picoctf_pattern (Agent.ai_response r).
Proof.
  unfold Agent.extract_flag_from_conversation. split.
  - destruct (Agent.first_flag _) as [f|] eqn:Hf.
    + apply first_flag_Some in Hf as (Hm & text & Hin & Ho).
      split; [done|]. apply conversation_texts in Hin as (r & Hr & Ht).
      exists r. split; [done|]. destruct Ht as [->| ->]; eauto.
    + intros r w Hr Hm.
      pose proof (proj1 (first_flag_None _) Hf) as Hnone.
      split; apply Hnone; try done; apply conversation_texts;
        exists r; eauto.
  - intros r w Hlast Hm Ho.
    destruct (Agent.conversation_history self) as [|r0 h] eqn:Hh
      using rev_ind; [done|].
    rewrite last_snoc in Hlast. simplify_eq.
    rewrite rev_app_distr. simpl.
    destruct (search_complete _ _ _ Hm Ho) as [[f caps] ->]. done.
Qed.

(** ** The totals of the summary *)

Lemma sum_list_add {A} (f g : A → nat) l :
  sum_list ((λ x, f x + g x) <$> l) = sum_list (f <$> l) + sum_list (g <$> l).
Proof. induction l as [|x l IH]; csimpl; lia. Qed.

Lemma sum_list_snoc l n : sum_list (l ++ [n]) = sum_list l + n.
Proof. induction l as [|x l IH]; simpl; lia. Qed.

(** The record of a round holds the token counts of its texts. *)
Lemma interact_tokens w self user_input input_source :
  let a := (Agent.interact w self user_input input_source).1 in
  Agent.conversation_history a = Agent.conversation_history self
  ∨ ∃ record,
      Agent.conversation_history a
      = Agent.conversation_history self ++ [record]
      ∧ Agent.input_tokens record
        = Agent.count_tokens w (Agent.human_input record)
      ∧ Agent.output_tokens record
        = Agent.count_tokens w (Agent.ai_response record).
Proof.
  unfold Agent.interact.
  destruct (Agent.guard_content user_input (Agent.messages self)) as [i h].
  simpl. destruct (Agent.invoke w i h) as [e|output steps]; simpl;
    [by left|].
  destruct (match (foldl _ _ _).1.1 with [] => _ | _ => _ end) as [[??]?].
  simpl. right. eexists. repeat split; done.
Qed.

(** X17.  In the summary of any agent the total of the tokens is the sum
    of the input total and the output total, and there is one entry for
    each recorded round.  In a session from a fresh agent the number of
    rounds of the summary is at most the number of calls of [interact],
    and the totals are the token counts of the recorded inputs and
    answers. *)
Theorem summary_totals (w : Agent.World) :
  (∀ self,
     let s := Agent.get_conversation_summary self in
     Agent.total_tokens s
     = Agent.total_input_tokens s + Agent.total_output_tokens s
     ∧ length (Agent.rounds s) = Agent.total_rounds s)
  ∧ (∀ inputs,
       let a := Agent.run w Agent.init inputs in
       let s := Agent.get_conversation_summary a in
       Agent.total_rounds s ≤ length inputs
       ∧ Agent.total_input_tokens s
         = sum_list ((λ r, Agent.count_tokens w (Agent.human_input r))
                       <$> Agent.conversation_history a)
       ∧ Agent.total_output_tokens s
         = sum_list ((λ r, Agent.count_tokens w (Agent.ai_response r))
                       <$> Agent.conversation_history a)).
Proof.
  split.
  - intros self. simpl. split; [apply sum_list_add|by rewrite length_fmap].
  - intros inputs. simpl.
    induction inputs as [|i inputs IH] using rev_ind; [done|].
    rewrite run_snoc, length_app. simpl.
    destruct IH as (Hn & Hi & Ho).
    destruct (interact_tokens w (Agent.run w Agent.init inputs) i.1 i.2)
      as [->|(record & -> & Hri & Hro)].
    + split; [lia|done].
    + rewrite length_app, !fmap_app. simpl.
      rewrite !sum_list_snoc, Hi, Ho, Hri, Hro. split; [lia|done].
Qed.

(** ** The results handed to the next prompt *)

Lemma truncated_results_known tree recent_results result :
  result ∈ Optimizer.get_truncated_important_results tree recent_results →
  result ∈ recent_results ∧ 80 < length (strip result).
Proof.
  unfold Optimizer.get_truncated_important_results.
  destruct recent_results as [|r0 rs] eqn:Hrs; [by intros ?%elem_of_nil|].
  rewrite <- Hrs. clear Hrs. intros [Hin|Hin]%elem_of_app.
  - destruct (last recent_results) as [latest|] eqn:Hlast;
      [|by apply elem_of_nil in Hin].
    destruct (bool_decide (80 < length (strip latest))) eqn:Hlen;
      [|by apply elem_of_nil in Hin].
    destruct (Optimizer.is_truncated_in_tree latest _);
      [|by apply elem_of_nil in Hin]. simpl in Hin.
    apply list_elem_of_singleton in Hin as ->.
    split; [by apply last_Some_elem_of|by apply bool_decide_eq_true in Hlen].
  - apply list_elem_of_filter in Hin as [(Hlen & _) Hin].
    split; [by apply slice_m3_m1_elem|done].
Qed.

Lemma sendable_not_blank result :
  Agent.sendable result = true → strip result ≠ [].
Proof.
  unfold Agent.sendable. intros H.
  apply andb_true_iff in H as [H _]. apply andb_true_iff in H as [_ H].
  by apply bool_decide_eq_true in H.
Qed.

(** X18.  Every result that [get_continue_prompt] hands to the next
    prompt is one of the tool results of the round and is not blank;
    without tool results nothing is handed on.  In the recent kind the
    results handed on are the latest result and then the earlier ones
    in their order, each when it is not blank and does not begin with
    the raw envelope prefix. *)
Theorem continue_results_known self tool_results :
  let passed := (Agent.get_continue_prompt self tool_results).2 in
  let context_data :=
    Optimizer.get_optimized_task_context (Agent.context_optimizer self)
      (Agent.task_tree self) (Agent.current_round self) tool_results in
  (∀ result, result ∈ passed →
             result ∈ tool_results ∧ strip result ≠ [])
  ∧ (tool_results = [] → passed = [])
  ∧ (Optimizer.kind context_data = Optimizer.recent →
     ∀ earlier latest, tool_results = earlier ++ [latest] →
       passed = filter (λ result, Agent.sendable result = true)
                  (latest :: earlier)).
Proof.
  intros passed context_data. subst passed.
  unfold Agent.get_continue_prompt. cbn [snd]. fold context_data.
  unfold Agent.filtered_results. split; [|split].
  - intros result Hin.
    destruct (last tool_results) as [latest|] eqn:Hlast;
      [|by apply elem_of_nil in Hin].
    apply elem_of_app in Hin as [Hin|Hin].
    + destruct (Agent.sendable latest) eqn:Hs; [|by apply elem_of_nil in Hin].
      apply list_elem_of_singleton in Hin as ->.
      split; [by apply last_Some_elem_of|by apply sendable_not_blank].
    + destruct (Optimizer.kind context_data) eqn:Hk.
      * by apply elem_of_nil in Hin.
      * apply list_elem_of_filter in Hin as [Hs Hin].
        split; [by apply subseteq_take in Hin|by apply sendable_not_blank].
      * apply list_elem_of_filter in Hin as [_ Hin].
        subst context_data.
        unfold Optimizer.get_optimized_task_context in Hin, Hk.
        destruct (Agent.task_tree self) as [tree|]; [|done].
        destruct (Optimizer.should_send_full_context _ _ _ _); [|done].
        simpl in Hin. apply truncated_results_known in Hin as [? Hlen].
        split; [done|]. intros Hnil. rewrite Hnil in Hlen. simpl in Hlen. lia.
  - by intros ->.
  - intros Hk earlier latest ->. rewrite last_snoc, Hk.
    rewrite length_app. simpl.
    replace (length earlier + 1 - 1) with (length earlier) by lia.
    rewrite take_app_length, filter_cons.
    by destruct (Agent.sendable latest).
Qed.

(** ** The last directive for a task *)

Section FindIndex.
Context {A : Type} (key : A → Z).

Lemma find_index_keys k (l : list A) : ∀ l' : list A,
  key <$> l = key <$> l' →
  find_index (λ t, bool_decide (key t = k)) l
  = find_index (λ t, bool_decide (key t = k)) l'.
Proof.
  induction l as [|x l IH]; intros [|x' l'] Heq; try done.
  simpl in *. injection Heq as Hx Hl. rewrite Hx. by rewrite (IH l').
Qed.


Lemma find_index_snoc_new k (l : list A) x :
  find_index (λ t, bool_decide (key t = k)) l = None → key x = k →
  find_index (λ t, bool_decide (key t = k)) (l ++ [x]) = Some (length l).
Proof.
  intros Hn Hx. induction l as [|y l IH]; simpl in *.
  - by rewrite bool_decide_eq_true_2.
  - case_bool_decide; [done|].
    destruct (find_index _ l); [done|]. by rewrite IH.
Qed.

End FindIndex.









(** ** Repeating a status update *)

(** X20.  [update_task_status] is idempotent: the same update applied a
    second time (at the same time of the clock) leaves the tree as the
    first application left it, whether the task existed or was created
    by the first application. *)
Theorem status_update_idempotent self task_id stat descr now :
  V3.update_task_status
    (V3.update_task_status self task_id stat descr now) task_id stat descr now
  = V3.update_task_status self task_id stat descr now.
Proof.
  unfold V3.update_task_status at 2 3.
  destruct (find_index _ (V3.tasks self)) as [i|] eqn:Hi.
  - unfold V3.update_task_status. cbn [V3.tasks V3.current_task_id
      V3.challenge_title].
    erewrite (find_index_keys V3.id task_id (alter _ i (V3.tasks self))
                (V3.tasks self)); [|by apply keys_alter].
    rewrite Hi. f_equal. rewrite list_alter_alter_eq.
    apply list_alter_ext; [|done]. intros t _. simpl.
    f_equal. by destruct descr as [[|c d]|].
  - unfold V3.update_task_status. cbn [V3.tasks V3.current_task_id
      V3.challenge_title].
    rewrite (find_index_snoc_new V3.id task_id) by done.
    f_equal.
    rewrite alter_app_r_alt by done. rewrite Nat.sub_diag. simpl.
    do 3 f_equal. by destruct descr as [[|c d]|].
Qed.

(** ** The display of the first task tree *)

Lemma slice_to_Z_length {A} (k : Z) (l : list A) :
  (0 ≤ k)%Z → (Z.of_nat (length (V1.slice_to_Z k l)) ≤ k)%Z.
Proof.
  intros Hk. unfold V1.slice_to_Z. rewrite bool_decide_eq_true_2 by done.
  rewrite length_take. lia.
Qed.

(** X21.  The result shown for a subtask in the display of the first
    task tree is bounded: for a limit of at least 3,
    [_clean_result_for_display] returns at most as many characters as
    the limit, or, for a result it holds important, as the smaller of
    150 and twice the limit; with the limit 80 of [get_tree_display]
    that is at most 150 characters.  A result cut for the display is a
    beginning of the trimmed result followed by three dots.
    [_truncate_text] keeps within its limit in the same way. *)
Theorem display_result_bounded :
  (∀ result max_length,
     (3 ≤ max_length)%Z →
     let shown := V1.clean_result_for_display result max_length in
     (Z.of_nat (length shown) ≤ Z.max max_length (Z.min 150 (max_length * 2)))%Z
     ∧ (shown = [] ∨ occurs_in shown (strip result)
        ∨ ∃ kept, shown = kept ++ py "..." ∧ occurs_in kept (strip result)))
  ∧ (∀ result, length (V1.clean_result_for_display result 80) ≤ 150)
  ∧ (∀ text max_length,
       (3 ≤ max_length)%Z →
       (Z.of_nat (length (V1.truncate_text text max_length)) ≤ max_length)%Z).
Proof.
  assert (Hmain : ∀ result max_length,
     (3 ≤ max_length)%Z →
     let shown := V1.clean_result_for_display result max_length in
     (Z.of_nat (length shown) ≤ Z.max max_length (Z.min 150 (max_length * 2)))%Z
     ∧ (shown = [] ∨ occurs_in shown (strip result)
        ∨ ∃ kept, shown = kept ++ py "..." ∧ occurs_in kept (strip result))).
  { intros result max_length Hmax shown. subst shown.
    unfold V1.clean_result_for_display.
    destruct result as [|c result]; [split; [simpl; lia|by left]|].
    set (stripped := strip (c :: result)).
    set (clean := if startswith stripped [34%N] && endswith stripped [34%N]
                  then drop 1 (take (length stripped - 1) stripped)
                  else stripped).
    assert (Hclean : occurs_in clean stripped).
    { subst clean. destruct (_ && _); [|apply occurs_in_refl].
      exists (take 1 (take (length stripped - 1) stripped)),
             (drop (length stripped - 1) stripped).
      by rewrite (assoc_L (++)), !take_drop. }
    set (m := if V1.is_important_result clean
              then Z.min 150 (max_length * 2) else max_length).
    assert (Hm : (3 ≤ m ≤ Z.max max_length (Z.min 150 (max_length * 2)))%Z)
      by (subst m; destruct (V1.is_important_result clean); lia).
    case_bool_decide as Hlen.
    - split.
      + rewrite length_app.
        pose proof (slice_to_Z_length (m - 3) clean ltac:(lia)).
        change (length (py "...")) with 3. lia.
      + right. right. eexists. split; [done|].
        unfold V1.slice_to_Z. rewrite bool_decide_eq_true_2 by lia.
        destruct Hclean as (pre & post & Heq).
        exists pre, (drop (Z.to_nat (m - 3)) clean ++ post).
        fold stripped. rewrite Heq.
        by rewrite (assoc_L (++) (take _ _)), take_drop.
    - split; [lia|]. right. by left. }
  split; [exact Hmain|]. split.
  - intros result. destruct (Hmain result 80%Z ltac:(lia)) as [H _].
    simpl in H. lia.
  - intros text max_length Hmax. unfold V1.truncate_text.
    case_bool_decide; [done|]. rewrite length_app.
    pose proof (slice_to_Z_length (max_length - 3) text ltac:(lia)).
    change (length (py "...")) with 3. lia.
Qed.

Lemma display_result_bounded_witness :
  (3 ≤ 80)%Z
  ∧ (Z.of_nat (length (V1.clean_result_for_display raw_envelope_result 80))
     ≤ Z.max 80 (Z.min 150 (80 * 2)))%Z.
Proof.
  assert (H : (3 ≤ 80)%Z) by lia.
  split; [exact H|].
  exact (proj1 (proj1 display_result_bounded raw_envelope_result 80%Z H)).
Defined.

(** ** The content guard applied again *)

(** X22.  The content guard is idempotent: content that went through
    the guard goes through it again unchanged.  An input cut to its
    first 100000 characters and the marker is cut to the same
    characters and the same marker, and a chat memory reduced to its
    last 10 messages is kept. *)
Theorem guard_idempotent user_input history :
  let guarded := Agent.guard_content user_input history in
  Agent.guard_content guarded.1 guarded.2 = guarded.
Proof.
  intros guarded. subst guarded. unfold Agent.guard_content at 2 3 4.
  case_bool_decide as Hbig; [|cbn [fst snd]; unfold Agent.guard_content;
                              by rewrite bool_decide_eq_false_2].
  cbn [fst snd]. unfold Agent.guard_content, slice_to.
  set (limit := Z.to_nat 100000).
  assert (Hlimit : Z.of_nat limit = 100000%Z) by (subst limit; lia).
  clearbody limit.
  set (input' := if bool_decide (100000 < Z.of_nat (length user_input))%Z
                 then take limit user_input ++ Agent.truncation_marker
                 else user_input).
  set (history' := if bool_decide (10 < length history)
                   then slice_last 10 history else history).
  assert (Hin : (if bool_decide (100000 < Z.of_nat (length input'))%Z
                 then take limit input' ++ Agent.truncation_marker
                 else input') = input').
  { subst input'.
    destruct (bool_decide (100000 < Z.of_nat (length user_input))%Z)
      eqn:Hlong.
    - apply bool_decide_eq_true in Hlong. rewrite bool_decide_eq_true_2.
      + rewrite take_app_length'; [done|]. rewrite length_take. lia.
      + rewrite length_app, length_take.
        assert (0 < length Agent.truncation_marker) by (vm_compute; lia).
        lia.
    - apply bool_decide_eq_false in Hlong.
      by rewrite bool_decide_eq_false_2. }
  assert (Hh : (if bool_decide (10 < length history')
                then slice_last 10 history' else history') = history').
  { subst history'. destruct (bool_decide (10 < length history)) eqn:Hmany.
    - rewrite bool_decide_eq_false_2; [done|].
      unfold slice_last. rewrite length_drop. lia.
    - apply bool_decide_eq_false in Hmany.
      by rewrite bool_decide_eq_false_2. }
  rewrite Hin, Hh. clearbody input' history'.
  by destruct (bool_decide (120000 < _)%Z).
Qed.

(** ** Tool calls written as tags *)

Lemma split_go_free c0 sep' a : ∀ rest cur,
  Forall (λ c, c ≠ c0) a →
  split_go (c0 :: sep') (a ++ rest) 0 cur
  = split_go (c0 :: sep') rest 0 (rev a ++ cur).
Proof.
  induction a as [|x a IH]; intros rest cur Hall; [done|].
  inversion Hall as [|?? Hx Hall']; subst.
  change ((x :: a) ++ rest) with (x :: (a ++ rest)).
  cbn [split_go startswith].
  assert ((c0 =? x)%N = false) as -> by (apply N.eqb_neq; congruence).
  cbn [andb]. rewrite IH by done. simpl. by rewrite <- (assoc_L (++)).
Qed.

Lemma split_go_skip sep u : ∀ rest cur,
  split_go sep (u ++ rest) (length u) cur = split_go sep rest 0 cur.
Proof. induction u as [|x u IH]; intros rest cur; simpl; [done|apply IH]. Qed.

Lemma startswith_app p : ∀ rest, startswith (p ++ rest) p = true.
Proof.
  induction p as [|c p IH]; intros rest; simpl; [done|].
  by rewrite N.eqb_refl, IH.
Qed.

Lemma split_go_hit c0 sep' rest cur :
  split_go (c0 :: sep') ((c0 :: sep') ++ rest) 0 cur
  = rev cur :: split_go (c0 :: sep') rest 0 [].
Proof.
  change ((c0 :: sep') ++ rest) with (c0 :: (sep' ++ rest)).
  cbn [split_go].
  change (c0 :: (sep' ++ rest)) with ((c0 :: sep') ++ rest).
  rewrite startswith_app. f_equal.
  replace (length (c0 :: sep') - 1) with (length sep') by (simpl; lia).
  apply split_go_skip.
Qed.

Lemma split_go_end sep cur : split_go sep [] 0 cur = [rev cur].
Proof. done. Qed.

Lemma occurs_contains w pre post : contains (pre ++ w ++ post) w = true.
Proof. apply contains_iff. by exists pre, post. Qed.

Lemma split_go_free' c0 sep' a done rest :
  Forall (λ c, c ≠ c0) a →
  split_go (c0 :: sep') (a ++ rest) 0 (rev done)
  = split_go (c0 :: sep') rest 0 (rev (done ++ a)).
Proof. intros. rewrite split_go_free by done. by rewrite rev_app_distr. Qed.

Lemma split_go_pass c0 s1 sep' t1 tag' done rest :
  s1 ≠ t1 → Forall (λ c, c ≠ c0) (t1 :: tag') →
  split_go (c0 :: s1 :: sep') ((c0 :: t1 :: tag') ++ rest) 0 (rev done)
  = split_go (c0 :: s1 :: sep') rest 0 (rev (done ++ c0 :: t1 :: tag')).
Proof.
  intros Hne Hall.
  change ((c0 :: t1 :: tag') ++ rest) with (c0 :: ((t1 :: tag') ++ rest)).
  cbn [split_go].
  assert (startswith (c0 :: (t1 :: tag') ++ rest) (c0 :: s1 :: sep') = false)
    as ->.
  { simpl. rewrite N.eqb_refl. simpl.
    assert ((s1 =? t1)%N = false) as -> by (by apply N.eqb_neq). done. }
  change (c0 :: rev done) with (rev [c0] ++ rev done).
  rewrite <- rev_app_distr, split_go_free' by done.
  by rewrite <- (assoc_L (++)).
Qed.

Lemma split_go_hit' c0 sep' done rest :
  split_go (c0 :: sep') ((c0 :: sep') ++ rest) 0 (rev done)
  = done :: split_go (c0 :: sep') rest 0 (rev []).
Proof. by rewrite split_go_hit, rev_involutive. Qed.

Lemma split_go_end' sep done : split_go sep [] 0 (rev done) = [done].
Proof. simpl. by rewrite rev_involutive. Qed.

Lemma split_start s sep : split s sep = split_go sep s 0 (rev []).
Proof. done. Qed.

(** The tags, as lists of characters. *)
Ltac tags :=
  repeat match goal with
  | |- context [py ?s] =>
    let l := eval vm_compute in (py s) in change (py s) with l
  end.

Lemma contains_free c p' s :
  Forall (λ x, x ≠ c) s → contains s (c :: p') = false.
Proof.
  induction 1 as [|x s Hx _ IH]; [done|].
  simpl. assert ((c =? x)%N = false) as -> by (apply N.eqb_neq; congruence).
  done.
Qed.

Lemma contains_free' c p' a rest :
  Forall (λ x, x ≠ c) a →
  contains (a ++ rest) (c :: p') = contains rest (c :: p').
Proof.
  induction 1 as [|x a Hx _ IH]; [done|].
  change ((x :: a) ++ rest) with (x :: (a ++ rest)).
  cbn [contains startswith].
  assert ((c =? x)%N = false) as -> by (apply N.eqb_neq; congruence).
  done.
Qed.

Lemma split_go_body done rest c :
  call_free c →
  split_go (py "<tool>") (call_body c ++ rest) 0 (rev done)
  = split_go (py "<tool>") rest 0 (rev (done ++ call_body c)).
Proof.
  intros (Hn & Hb & Hi & Ha). unfold call_body, tag_free in *. tags.
  rewrite <- !(assoc_L (++)).
  rewrite split_go_free' by done.
  rewrite split_go_pass by (done || by repeat constructor).
  rewrite split_go_free' by done.
  rewrite split_go_pass by (done || by repeat constructor).
  rewrite split_go_free' by done.
  rewrite split_go_pass by (done || by repeat constructor).
  rewrite split_go_free' by done.
  by rewrite <- !(assoc_L (++)).
Qed.

Lemma split_calls calls : ∀ done,
  Forall call_free calls →
  split_go (py "<tool>") (concat (render_call <$> calls)) 0 (rev done)
  = done :: (call_body <$> calls).
Proof.
  induction calls as [|c calls IH]; intros done Hall.
  - simpl. by rewrite rev_involutive.
  - inversion Hall as [|?? Hc Hall']; subst.
    rewrite fmap_cons. cbn [concat]. unfold render_call at 1.
    rewrite <- (assoc_L (++)).
    change (py "<tool>") with [60%N; 116%N; 111%N; 111%N; 108%N; 62%N].
    rewrite split_go_hit'.
    change [60%N; 116%N; 111%N; 111%N; 108%N; 62%N] with (py "<tool>").
    by rewrite split_go_body, IH.
Qed.

Lemma call_body_parsed c :
  call_free c →
  contains (call_body c) (py "</tool>") = true
  ∧ contains (call_body c) (py "<input>") = true
  ∧ contains (call_body c) (py "</input>") = true
  ∧ head (split (call_body c) (py "</tool>")) = Some (tc_name c)
  ∧ split (call_body c) (py "<input>") !! 1
    = Some (tc_input c ++ py "</input>" ++ tc_after c)
  ∧ head (split (tc_input c ++ py "</input>" ++ tc_after c) (py "</input>"))
    = Some (tc_input c).
Proof.
  intros (Hn & Hb & Hi & Ha). unfold call_body, tag_free in *.
  split; [apply occurs_contains|]. split.
  { apply contains_iff. exists (tc_name c ++ py "</tool>" ++ tc_between c),
      (tc_input c ++ py "</input>" ++ tc_after c).
    by rewrite <- !(assoc_L (++)). }
  split.
  { apply contains_iff.
    exists (tc_name c ++ py "</tool>" ++ tc_between c ++ py "<input>"
            ++ tc_input c), (tc_after c).
    by rewrite <- !(assoc_L (++)). }
  split.
  { rewrite split_start. tags.
    by rewrite split_go_free', split_go_hit' by done. }
  split.
  { rewrite split_start. tags.
    rewrite split_go_free' by done.
    rewrite split_go_pass by (done || by repeat constructor).
    rewrite split_go_free', split_go_hit' by done.
    rewrite split_go_free' by done.
    rewrite split_go_pass by (done || by repeat constructor).
    rewrite <- (app_nil_r (tc_after c)) at 1.
    rewrite split_go_free', split_go_end' by done.
    simpl. by rewrite <- !(assoc_L (++)). }
  rewrite split_start. tags.
  by rewrite split_go_free', split_go_hit' by done.
Qed.

(** X23.  Tool calls written as tags are read back: for a response made
    of some text and then of calls, each written as the name between
    [<tool>] and [</tool>], some text, the input between [<input>] and
    [</input>], and some text, none of these parts holding the character
    [<], [_parse_tool_calls] returns the calls in their order, each as
    its name and its input, both trimmed; in particular a response
    without the character [<] gives no call.  A tool tag that is not
    followed by an input is dropped. *)
Theorem tool_calls_read_back :
  (∀ before calls,
     tag_free before → Forall call_free calls →
     Agent.parse_tool_calls (before ++ concat (render_call <$> calls))
     = (λ c, (strip (tc_name c), strip (tc_input c))) <$> calls)
  ∧ (∀ before name after,
       tag_free before → tag_free name → tag_free after →
       Agent.parse_tool_calls
         (before ++ py "<tool>" ++ name ++ py "</tool>" ++ after) = []).
Proof.
  split.
  - intros before calls Hb Hall. unfold Agent.parse_tool_calls.
    rewrite split_start.
    change (py "<tool>") with [60%N; 116%N; 111%N; 111%N; 108%N; 62%N] at 1.
    rewrite split_go_free' by done.
    change [60%N; 116%N; 111%N; 111%N; 108%N; 62%N] with (py "<tool>").
    rewrite split_calls by done. cbn [drop]. rewrite drop_0.
    induction Hall as [|c calls Hc _ IH]; [done|].
    rewrite !fmap_cons. cbn [omap list_omap].
    destruct (call_body_parsed c Hc) as (-> & -> & -> & -> & -> & Hin).
    cbn [negb orb default from_option id]. rewrite Hin.
    cbn [default from_option id]. f_equal. apply IH.
  - intros before name after Hb Hn Ha. unfold Agent.parse_tool_calls.
    unfold tag_free in *.
    assert (Hsplit : split (before ++ py "<tool>" ++ name ++ py "</tool>"
                            ++ after) (py "<tool>")
                     = [before; name ++ py "</tool>" ++ after]).
    { rewrite split_start. tags.
      rewrite split_go_free', split_go_hit' by done.
      rewrite split_go_free' by done.
      rewrite split_go_pass by (done || by repeat constructor).
      rewrite <- (app_nil_r after) at 1.
      rewrite split_go_free', split_go_end' by done.
      simpl. by rewrite <- !(assoc_L (++)). }
    rewrite Hsplit. cbn [drop omap list_omap].
    rewrite occurs_contains. cbn [negb].
    assert (contains (name ++ py "</tool>" ++ after) (py "<input>") = false)
      as ->; [|done].
    tags. rewrite contains_free' by done.
    change ([60%N; 47%N; 116%N; 111%N; 111%N; 108%N; 62%N] ++ after)
      with (60%N :: ([47%N; 116%N; 111%N; 111%N; 108%N; 62%N] ++ after)).
    cbn [contains startswith N.eqb Pos.eqb andb orb].
    rewrite contains_free' by (by repeat constructor).
    by apply contains_free.
Qed.

Lemma tool_calls_read_back_witness :
  tag_free (py "I list the files. ")
  ∧ Forall call_free sample_calls
  ∧ Agent.parse_tool_calls
      (py "I list the files. " ++ concat (render_call <$> sample_calls))
    = (λ c, (strip (tc_name c), strip (tc_input c))) <$> sample_calls.
Proof.
  assert (H1 : tag_free (py "I list the files. "))
    by (unfold tag_free; each_char).
  assert (H2 : Forall call_free sample_calls).
  { unfold sample_calls.
    apply Forall_cons. split; [|apply Forall_cons; split; [|by apply Forall_nil]];
      unfold call_free, tag_free; cbn [tc_name tc_between tc_input tc_after];
      repeat split; each_char. }
  split; [exact H1|]. split; [exact H2|].
  exact (proj1 tool_calls_read_back (py "I list the files. ") sample_calls
           H1 H2).
Defined.

(** ** The names of the files in a prompt *)

Lemma split_go_nonempty sep s : ∀ skip cur, split_go sep s skip cur ≠ [].
Proof.
  induction s as [|c s IH]; intros skip cur; simpl; [done|].
  destruct skip; [|apply IH]. by case_match.
Qed.

Lemma last_cons_nonempty {A} (x : A) l : l ≠ [] → last (x :: l) = last l.
Proof. by destruct l. Qed.

Lemma split_go_last c name s : ∀ cur,
  Forall (λ x, x ≠ c) name →
  last (split_go [c] (s ++ [c] ++ name) 0 cur) = Some name.
Proof.
  intros cur Hfree. revert cur. induction s as [|x s IH]; intros cur.
  - rewrite app_nil_l, split_go_hit.
    rewrite last_cons_nonempty by apply split_go_nonempty.
    rewrite <- (app_nil_r name) at 1.
    rewrite split_go_free by done. simpl.
    by rewrite app_nil_r, rev_involutive.
  - change ((x :: s) ++ [c] ++ name) with (x :: (s ++ [c] ++ name)).
    cbn [split_go startswith]. destruct (c =? x)%N; cbn [andb].
    + rewrite last_cons_nonempty by apply split_go_nonempty. apply IH.
    + apply IH.
Qed.

(** X24.  The name shown for a file in a prompt is the part of its path
    after the last slash: for a path made of a directory, a slash and a
    name without slash it is the name, whatever the directory, and a path
    without slash is shown as it is. *)
Theorem file_name_is_base_name :
  (∀ dir name,
     Forall (λ c, c ≠ 47%N) name →
     Registry.file_name (dir ++ py "/" ++ name) = name)
  ∧ (∀ name,
       Forall (λ c, c ≠ 47%N) name → Registry.file_name name = name)
  ∧ (∀ dir name,
       Forall (λ c, c ≠ 47%N) name →
       Registry.format_files_list [dir ++ py "/" ++ name]
       = py "[File 1]: " ++ name).
Proof.
  assert (H : ∀ dir name,
            Forall (λ c, c ≠ 47%N) name →
            Registry.file_name (dir ++ py "/" ++ name) = name).
  { intros dir name Hfree. unfold Registry.file_name.
    rewrite occurs_contains. unfold split.
    change (py "/") with [47%N]. by rewrite split_go_last. }
  split; [exact H|]. split.
  - intros name Hfree. unfold Registry.file_name.
    change (py "/") with [47%N]. by rewrite contains_free.
  - intros dir name Hfree. unfold Registry.format_files_list.
    cbn [imap join]. by rewrite H.
Qed.

Lemma file_name_is_base_name_witness :
  Forall (λ c, c ≠ 47%N) (py "flag.txt")
  ∧ Registry.file_name (py "challenges/web/files" ++ py "/" ++ py "flag.txt")
    = py "flag.txt".
Proof.
  assert (H : Forall (λ c, c ≠ 47%N) (py "flag.txt")) by each_char.
  split; [exact H|].
  exact (proj1 file_name_is_base_name (py "challenges/web/files")
           (py "flag.txt") H).
Defined.

(** ** The two notations of the task manager *)



(** ** The tree over a session *)







